(** * pptx-slide-translator: batched translation, usage accounting, job scheduler

    A shallow embedding of the core of the service:
    - [backend/token_counter.py]: the pricing table, model-name normalisation
      and cost calculation ([OpenAIPricingCalculator]);
    - [backend/translator.py]: text collection over the shape tree, the
      batched translation pipeline and the analysis pass;
    - [backend/main.py]: the scheduler loop [process_translation_queue],
      the handlers [upload_file], [download_result], [get_job_status] and
      [get_queue_status], and [get_client_ip];
    - [backend/token_counter.py]: the callback [TiktokenCountCallback] and
      [estimate_translation_cost], over an abstract tokenizer.

    Python [str] values are modelled as [string]; a character is a code point
    below 256, so [strip] and [lower] are Python's restricted to that range.
    Python [float] is the binary64 primitive [float]. *)

From stdpp Require Import gmap strings list pretty.
From Stdlib Require Import Ascii PrimFloat FloatOps SpecFloat.
Set Warnings "-inexact-float,-register-all".

Open Scope string_scope.
Open Scope list_scope.
Open Scope nat_scope.

(** ** Python exceptions and results *)

Inductive exn : Type :=
  | ValueError (msg : string)
  | TypeError (msg : string)
  | KeyError (msg : string)
  | IndexError (msg : string)
  | AttributeError (msg : string)
  | ZeroDivisionError (msg : string)
  | OverflowError (msg : string)
  | OutputParserException (msg : string)
  | PackageNotFoundError (msg : string)
  | RuntimeError (msg : string)
  | HTTPException (status_code : nat) (detail : string).

(** [str(e)] *)
Definition str_of_exn (e : exn) : string :=
  match e with
  | ValueError m | TypeError m | KeyError m | IndexError m
  | AttributeError m | ZeroDivisionError m | OverflowError m
  | OutputParserException m | PackageNotFoundError m | RuntimeError m => m
  | HTTPException _ detail => detail
  end.

Inductive result (A : Type) : Type :=
  | Ok (a : A)
  | Raise (e : exn).
Arguments Ok {A} a.
Arguments Raise {A} e.

Global Instance result_ret : MRet result := λ A a, Ok a.
Global Instance result_bind : MBind result := λ A B k r,
  match r with
  | Ok a => k a
  | Raise e => Raise e
  end.

(** [try: body except Exception as e: handler e] *)
Definition try_except {A} (body : result A) (handler : exn → result A) : result A :=
  match body with
  | Ok a => Ok a
  | Raise e => handler e
  end.

(** ** Python string operations *)

Module PyStr.

(** [str.isspace] on one code point below 256: U+0009..U+000D,
    U+001C..U+0020, U+0085 and U+00A0. *)
Definition isspace (c : ascii) : bool :=
  let n := nat_of_ascii c in
  ((9 <=? n)%nat && (n <=? 13)%nat) || ((28 <=? n)%nat && (n <=? 32)%nat)
  || (n =? 133)%nat || (n =? 160)%nat.

Definition is_empty (s : string) : bool :=
  match s with
  | EmptyString => true
  | String _ _ => false
  end.

Fixpoint lstrip (s : string) : string :=
  match s with
  | EmptyString => EmptyString
  | String c s' => if isspace c then lstrip s' else s
  end.

Fixpoint rstrip (s : string) : string :=
  match s with
  | EmptyString => EmptyString
  | String c s' =>
      let r := rstrip s' in
      if isspace c && is_empty r then EmptyString else String c r
  end.

(** [s.strip()] *)
Definition strip (s : string) : string := rstrip (lstrip s).

(** Truth value of a string: [if s:] *)
Definition truthy (s : string) : bool := negb (is_empty s).

(** [str.lower] on one code point below 256: A..Z and the Latin-1 capitals
    U+00C0..U+00DE (without U+00D7) move up by 32. *)
Definition lower_char (c : ascii) : ascii :=
  let n := nat_of_ascii c in
  if ((65 <=? n)%nat && (n <=? 90)%nat)
     || ((192 <=? n)%nat && (n <=? 222)%nat && negb (n =? 215)%nat)
  then ascii_of_nat (n + 32) else c.

Fixpoint lower (s : string) : string :=
  match s with
  | EmptyString => EmptyString
  | String c s' => String (lower_char c) (lower s')
  end.

(** ASCII [str.upper], used by the uppercasing test backend. *)
Definition upper_char (c : ascii) : ascii :=
  let n := nat_of_ascii c in
  if (97 <=? n)%nat && (n <=? 122)%nat then ascii_of_nat (n - 32) else c.

Fixpoint upper (s : string) : string :=
  match s with
  | EmptyString => EmptyString
  | String c s' => String (upper_char c) (upper s')
  end.

(** [s.endswith(suffix)] *)
Definition endswith (s suffix : string) : bool :=
  let n := String.length s in
  let k := String.length suffix in
  (k <=? n)%nat && String.eqb (Stdlib.Strings.String.substring (n - k) k s) suffix.

(** The characters of a string, as iteration over it yields them. *)
Fixpoint chars (s : string) : list string :=
  match s with
  | EmptyString => []
  | String c s' => String c EmptyString :: chars s'
  end.

(** [p in s] for strings: [p] occurs in [s] as a contiguous substring. *)
Fixpoint contains (p s : string) : bool :=
  String.prefix p s ||
  match s with
  | EmptyString => false
  | String _ s' => contains p s'
  end.

End PyStr.

(** ** Python numbers: true division of integers and [round(x, 6)] *)

Module PyNum.

Definition SF_of_Z (z : Z) : spec_float :=
  match z with
  | Z0 => S754_zero false
  | Zpos p => S754_finite false p 0
  | Zneg p => S754_finite true p 0
  end.

(** [a / b] on Python integers: the correctly rounded quotient. *)
Definition int_truediv (a b : Z) : result float :=
  if (b =? 0)%Z then Raise (ZeroDivisionError "division by zero")
  else
    let q := SF2Prim (SFdiv prec emax (SF_of_Z a) (SF_of_Z b)) in
    if is_infinity q
    then Raise (OverflowError "integer division result too large for a float")
    else Ok q.

(** The integer nearest to [m * 10^6 * 2^e], ties to even. *)
Definition scaled_half_even (m : positive) (e : Z) : Z :=
  let num := (Z.pos m * 1000000)%Z in
  if (0 <=? e)%Z then Z.shiftl num e
  else
    let den := Z.shiftl 1 (- e) in
    let q := (num / den)%Z in
    let r := (num mod den)%Z in
    match (2 * r ?= den)%Z with
    | Lt => q
    | Gt => (q + 1)%Z
    | Eq => if Z.even q then q else (q + 1)%Z
    end.

(** [round(x, 6)]: the decimal with six digits nearest to the exact value
    of [x] (ties to even), read back as the nearest float.  Zeros,
    infinities and nan round to themselves. *)
Definition round6 (x : float) : float :=
  match Prim2SF x with
  | S754_finite s m e =>
      let k :=
        match scaled_half_even m e with
        | Zpos p => S754_finite s p 0
        | _ => S754_zero s
        end in
      SF2Prim (SFdiv prec emax k (S754_finite false 1000000 0))
  | _ => x
  end.

End PyNum.

(** ** backend/token_counter.py: [OpenAIPricingCalculator] *)

Module TokenCounter.
Import PyStr PyNum.

(** One entry of the pricing table: USD per 1K tokens. *)
Record pricing : Type := { input : float; output : float }.

Definition PRICING : gmap string pricing := list_to_map [
  ("gpt-5", {| input := 0.00125; output := 0.010 |});
  ("gpt-5-mini", {| input := 0.00025; output := 0.002 |});
  ("gpt-5-nano", {| input := 0.00005; output := 0.0004 |});
  ("gpt-5-chat-latest", {| input := 0.00125; output := 0.010 |});
  ("gpt-5-codex", {| input := 0.00125; output := 0.010 |});
  ("gpt-5-pro", {| input := 0.015; output := 0.120 |});
  ("gpt-4.1", {| input := 0.002; output := 0.008 |});
  ("gpt-4.1-mini", {| input := 0.0004; output := 0.0016 |});
  ("gpt-4.1-nano", {| input := 0.0001; output := 0.0004 |});
  ("o1", {| input := 0.015; output := 0.060 |});
  ("o1-pro", {| input := 0.150; output := 0.600 |});
  ("o3", {| input := 0.002; output := 0.008 |});
  ("o3-pro", {| input := 0.020; output := 0.080 |});
  ("o3-deep-research", {| input := 0.010; output := 0.040 |});
  ("o4-mini", {| input := 0.0011; output := 0.0044 |});
  ("o4-mini-deep-research", {| input := 0.002; output := 0.008 |});
  ("o3-mini", {| input := 0.0011; output := 0.0044 |});
  ("o1-mini", {| input := 0.0011; output := 0.0044 |});
  ("gpt-4o", {| input := 0.0025; output := 0.010 |});
  ("gpt-4o-mini", {| input := 0.000150; output := 0.000600 |});
  ("gpt-4o-2024-05-13", {| input := 0.005; output := 0.015 |});
  ("gpt-realtime", {| input := 0.004; output := 0.016 |});
  ("gpt-realtime-mini", {| input := 0.0006; output := 0.0024 |});
  ("gpt-4", {| input := 0.03; output := 0.06 |});
  ("gpt-4-32k", {| input := 0.06; output := 0.12 |});
  ("gpt-4-turbo", {| input := 0.01; output := 0.03 |});
  ("gpt-3.5-turbo", {| input := 0.0005; output := 0.0015 |});
  ("gpt-3.5-turbo-16k", {| input := 0.003; output := 0.004 |});
  ("default", {| input := 0.0004; output := 0.0016 |})
].

(** [key in cls.PRICING] *)
Definition in_PRICING (key : string) : bool := bool_decide (is_Some (PRICING !! key)).

(** [cls.PRICING[key]] *)
Definition PRICING_getitem (key : string) : result pricing :=
  match PRICING !! key with
  | Some p => Ok p
  | None => Raise (KeyError key)
  end.

Definition _normalize_model_name (model_name : string) : string :=
  let model_lower := strip (lower model_name) in
  (* Exact matches first *)
  if in_PRICING model_lower then model_lower
  (* GPT-5 series *)
  else if contains "gpt-5-pro" model_lower then "gpt-5-pro"
  else if contains "gpt-5-nano" model_lower then "gpt-5-nano"
  else if contains "gpt-5-mini" model_lower then "gpt-5-mini"
  else if contains "gpt-5-chat-latest" model_lower then "gpt-5-chat-latest"
  else if contains "gpt-5-codex" model_lower then "gpt-5-codex"
  else if contains "gpt-5" model_lower then "gpt-5"
  (* GPT-4.1 series *)
  else if contains "gpt-4.1-nano" model_lower then "gpt-4.1-nano"
  else if contains "gpt-4.1-mini" model_lower then "gpt-4.1-mini"
  else if contains "gpt-4.1" model_lower then "gpt-4.1"
  (* O-series models *)
  else if contains "o4-mini-deep-research" model_lower then "o4-mini-deep-research"
  else if contains "o4-mini" model_lower then "o4-mini"
  else if contains "o3-deep-research" model_lower then "o3-deep-research"
  else if contains "o3-pro" model_lower then "o3-pro"
  else if contains "o3-mini" model_lower then "o3-mini"
  else if contains "o3" model_lower then "o3"
  else if contains "o1-pro" model_lower then "o1-pro"
  else if contains "o1-mini" model_lower then "o1-mini"
  else if contains "o1" model_lower then "o1"
  (* GPT-4o series *)
  else if contains "gpt-4o-mini" model_lower then "gpt-4o-mini"
  else if contains "gpt-4o-2024-05-13" model_lower then "gpt-4o-2024-05-13"
  else if contains "gpt-4o" model_lower then "gpt-4o"
  (* Realtime models *)
  else if contains "gpt-realtime-mini" model_lower then "gpt-realtime-mini"
  else if contains "gpt-realtime" model_lower then "gpt-realtime"
  (* Legacy GPT-4 models *)
  else if contains "gpt-4-turbo" model_lower then "gpt-4-turbo"
  else if contains "gpt-4-32k" model_lower then "gpt-4-32k"
  else if contains "gpt-4" model_lower then "gpt-4"
  (* GPT-3.5 models *)
  else if contains "gpt-3.5-turbo-16k" model_lower then "gpt-3.5-turbo-16k"
  else if contains "gpt-3.5-turbo" model_lower then "gpt-3.5-turbo"
  else "default".

(** The returned dictionary of [calculate_cost]. *)
Record cost_breakdown : Type :=
  { input_cost : float; output_cost : float; total_cost : float }.

Definition calculate_cost (model_name : string) (input_tokens output_tokens : Z)
  : result cost_breakdown :=
  let normalized_model := _normalize_model_name model_name in
  fallback ← PRICING_getitem "default";
  let pricing := default fallback (PRICING !! normalized_model) in
  input_k ← int_truediv input_tokens 1000;
  let input_cost := (input_k * input pricing)%float in
  output_k ← int_truediv output_tokens 1000;
  let output_cost := (output_k * output pricing)%float in
  let total_cost := (input_cost + output_cost)%float in
  mret {| input_cost := round6 input_cost;
          output_cost := round6 output_cost;
          total_cost := round6 total_cost |}.

(** [calculate_openai_cost] *)
Definition calculate_openai_cost (model : string) (input_tokens output_tokens : Z)
  : result cost_breakdown :=
  calculate_cost model input_tokens output_tokens.

(** *** The cost rule in the words of the specification *)

(** The known model family patterns, in the order in which they are tried. *)
Definition spec_patterns : list string := [
  "gpt-5-pro"; "gpt-5-nano"; "gpt-5-mini"; "gpt-5-chat-latest"; "gpt-5-codex"; "gpt-5";
  "gpt-4.1-nano"; "gpt-4.1-mini"; "gpt-4.1";
  "o4-mini-deep-research"; "o4-mini"; "o3-deep-research"; "o3-pro"; "o3-mini"; "o3";
  "o1-pro"; "o1-mini"; "o1";
  "gpt-4o-mini"; "gpt-4o-2024-05-13"; "gpt-4o";
  "gpt-realtime-mini"; "gpt-realtime";
  "gpt-4-turbo"; "gpt-4-32k"; "gpt-4";
  "gpt-3.5-turbo-16k"; "gpt-3.5-turbo" ].

(** The first pattern of the list that occurs in the name. *)
Fixpoint first_match (patterns : list string) (name : string) : option string :=
  match patterns with
  | [] => None
  | p :: rest => if contains p name then Some p else first_match rest name
  end.

(** Exact match first, then the first matching pattern, then the default. *)
Definition spec_normalize (model_name : string) : string :=
  let name := strip (lower model_name) in
  if in_PRICING name then name
  else default "default" (first_match spec_patterns name).

(** Descending specificity: no pattern occurs inside a pattern tried after
    it, so a variant is always tried before its parent family. *)
Fixpoint descending_specificity (patterns : list string) : bool :=
  match patterns with
  | [] => true
  | p :: rest => forallb (λ q, negb (contains p q)) rest && descending_specificity rest
  end.

(** The pricing tier used for a name that matches nothing. *)
Definition default_tier : pricing := {| input := 0.0004; output := 0.0016 |}.

(** Cost of a token usage at a given tier. *)
Definition cost_at (tier : pricing) (input_tokens output_tokens : Z)
  : result cost_breakdown :=
  input_k ← int_truediv input_tokens 1000;
  output_k ← int_truediv output_tokens 1000;
  let ic := (input_k * input tier)%float in
  let oc := (output_k * output tier)%float in
  mret {| input_cost := round6 ic; output_cost := round6 oc;
          total_cost := round6 (ic + oc)%float |}.

End TokenCounter.

(** ** backend/translator.py *)

Module Translator.
Import PyStr.

(** *** Values produced by the JSON output parser *)

Inductive pyval : Type :=
  | PNone
  | PBool (b : bool)
  | PInt (z : Z)
  | PFloat (f : float)
  | PStr (s : string)
  | PList (l : list pyval)
  | PDict (d : gmap string pyval).

(** [isinstance(v, dict)] *)
Definition is_dict (v : pyval) : bool :=
  match v with
  | PDict _ => true
  | _ => false
  end.

(** [key in v] for a dictionary [v] *)
Definition dict_contains (v : pyval) (key : string) : bool :=
  match v with
  | PDict d => bool_decide (is_Some (d !! key))
  | _ => false
  end.

(** [v[key]] with a string key *)
Definition py_getitem (v : pyval) (key : string) : result pyval :=
  match v with
  | PDict d =>
      match d !! key with
      | Some x => Ok x
      | None => Raise (KeyError key)
      end
  | PStr _ => Raise (TypeError "string indices must be integers")
  | PList _ => Raise (TypeError "list indices must be integers or slices, not str")
  | _ => Raise (TypeError "object is not subscriptable")
  end.

(** The elements visited by [for item in v]. *)
Definition py_iter (v : pyval) : result (list pyval) :=
  match v with
  | PList l => Ok l
  | PStr s => Ok (PStr <$> chars s)
  | PDict d => Ok ((λ kv, PStr kv.1) <$> map_to_list d)
  | _ => Raise (TypeError "object is not iterable")
  end.

Definition hashable (v : pyval) : bool :=
  match v with
  | PList _ | PDict _ => false
  | _ => true
  end.

(** A dictionary under construction, as its sequence of insertions; a later
    insertion of a key replaces an earlier one. *)
Definition pydict : Type := list (pyval * pyval).

(** [d.get(key)] for a string key: the last insertion under that key. *)
Fixpoint dict_get (d : pydict) (key : string) : option pyval :=
  match d with
  | [] => None
  | (k, v) :: rest =>
      match dict_get rest key with
      | Some x => Some x
      | None =>
          match k with
          | PStr s => if String.eqb s key then Some v else None
          | _ => None
          end
      end
  end.

(** [{item["id"]: item["translated"] for item in translations}] *)
Fixpoint build_id_to_trans (translations : list pyval) : result pydict :=
  match translations with
  | [] => Ok []
  | item :: rest =>
      k ← py_getitem item "id";
      v ← py_getitem item "translated";
      if hashable k
      then d ← build_id_to_trans rest; mret ((k, v) :: d)
      else Raise (TypeError "unhashable type")
  end.

(** *** Batched translation *)

(** [{"id": ..., "text": ...}] *)
Record item : Type := { id : string; text : string }.

(** The translation chain [prompt_template | model | parser]: given the
    completion rank of the request among the concurrent requests, the
    language named in the prompt and the items of [items_json], it returns
    the parsed response or raises. *)
Definition Chain : Type := nat → string → list item → result pyval.

Definition enumerate {A} (l : list A) : list (nat * A) := imap pair l.

(** [range(0, stop, step)] *)
Definition range_step (stop step : nat) : list nat :=
  (λ k, k * step) <$> seq 0 ((stop + step - 1) / step).

(** [l[i:j]] *)
Definition slice {A} (l : list A) (i j : nat) : list A := take (j - i) (drop i l).

(** [l[i]] *)
Definition list_getitem {A} (l : list A) (i : nat) : result A :=
  match l !! i with
  | Some x => Ok x
  | None => Raise (IndexError "list index out of range")
  end.

(** [l[i] = x] *)
Definition list_setitem {A} (l : list A) (i : nat) (x : A) : result (list A) :=
  if decide (i < length l) then Ok (<[i := x]> l)
  else Raise (IndexError "list assignment index out of range").

(** A [for] loop over [l] threading the loop state [s]. *)
Fixpoint for_each {S A} (body : S → A → result S) (s : S) (l : list A) : result S :=
  match l with
  | [] => Ok s
  | x :: rest => s' ← body s x; for_each body s' rest
  end.

(** First loop of [translate_texts_openai_async]: the non-empty texts with
    their ids, and the indices they came from. *)
Definition collect_non_empty (texts : list string) : list item * list nat :=
  foldl (λ '(non_empty_texts, text_indices) '(i, t),
           if truthy (strip t)
           then (non_empty_texts ++ [{| id := "text_" +:+ pretty i; text := strip t |}],
                 text_indices ++ [i])
           else (non_empty_texts, text_indices))
        ([], []) (enumerate texts).

Definition language_name (target_lang : string) : string :=
  if String.eqb target_lang "en" then "English" else "Japanese".

(** Loop over the chunk inside [process_chunk]. *)
Definition resolve_item (id_to_trans : pydict) (it : item) : result string :=
  let translated := default (PStr (text it)) (dict_get id_to_trans (id it)) in
  match translated with
  | PStr s => mret (if truthy (strip s) then s else text it)
  | _ => Raise (AttributeError "object has no attribute 'strip'")
  end.

Definition process_chunk (ainvoke : list item → result pyval) (chunk : list item)
  : result (list string) :=
  try_except
    (result ← ainvoke chunk;
     if negb (is_dict result && dict_contains result "translations")
     then mret (text <$> chunk)
     else
       translations ← py_getitem result "translations";
       entries ← py_iter translations;
       id_to_trans ← build_id_to_trans entries;
       mapM (resolve_item id_to_trans) chunk)
    (λ e, mret (text <$> chunk)).

(** Position of task [k] in the order in which the tasks complete. *)
Definition completion_rank (order : list nat) (k : nat) : nat :=
  default (length order) (fst <$> list_find (λ j, j = k) order).

(** [await asyncio.gather] over the tasks: every task runs at its completion rank;
    the results come back in the order of the tasks, whatever the order of
    completion.  A task that raises makes the call raise. *)
Definition gather {A} (order : list nat) (tasks : list (nat → result A))
  : result (list A) :=
  mapM (λ r, r) (imap (λ k task, task (completion_rank order k)) tasks).

Definition translate_texts_openai_async
    (chain : Chain) (order : list nat) (texts : list string) (target_lang : string)
  : result (list string) :=
  if bool_decide (texts = []) then mret []
  else
    let '(non_empty_texts, text_indices) := collect_non_empty texts in
    if bool_decide (non_empty_texts = []) then mret (replicate (length texts) "")
    else
      let batch_size := 10 in
      let tasks :=
        (λ i rank, process_chunk (chain rank (language_name target_lang))
                                 (slice non_empty_texts i (i + batch_size)))
          <$> range_step (length non_empty_texts) batch_size in
      results ← gather order tasks;
      let all_translations := foldl (λ acc chunk_result, acc ++ chunk_result) [] results in
      for_each
        (λ final_results '(i, original_index),
           if decide (i < length all_translations)
           then v ← list_getitem all_translations i;
                list_setitem final_results original_index v
           else v ← list_getitem texts original_index;
                list_setitem final_results original_index v)
        (replicate (length texts) "") (enumerate text_indices).

(** *** Documents and the file system *)

(** Identity of a mutable text slot of a document: a run or a table cell. *)
Definition ref : Type := nat.

(** The shape tree.  A table is reached through [shape.table], which may
    raise; a text container is a shape with a [text_frame], given by its
    paragraphs, each a list of runs. *)
Inductive shape : Type :=
  | Group (shapes : list shape)
  | Table (table : result (list (list ref)))
  | TextContainer (paragraphs : list (list ref))
  | Other.

(** A loaded presentation: the shape trees of its slides and the current
    text of every slot. *)
Record presentation : Type :=
  { slides : list (list shape); slot_text : gmap ref string }.

(** [obj.text] *)
Definition get_text (texts : gmap ref string) (obj : ref) : string :=
  default "" (texts !! obj).

(** The two accumulators of the collection: [texts_to_translate] and
    [text_objects]. *)
Definition collected : Type := list string * list ref.

(** [if obj.text.strip(): texts_to_translate.append(obj.text);
    text_objects.append(obj)] *)
Definition collect_slot (texts : gmap ref string) (acc : collected) (obj : ref)
  : collected :=
  if truthy (strip (get_text texts obj))
  then (acc.1 ++ [get_text texts obj], acc.2 ++ [obj])
  else acc.

Fixpoint collect_texts_from_shape
    (texts : gmap ref string) (sh : shape) (acc : collected) {struct sh} : collected :=
  match sh with
  | Group shapes =>
      foldl (λ acc child_shape, collect_texts_from_shape texts child_shape acc) acc shapes
  | Table table =>
      match table with
      | Ok rows => foldl (λ acc row, foldl (collect_slot texts) acc row) acc rows
      | Raise e => acc
      end
  | TextContainer paragraphs =>
      foldl (λ acc paragraph, foldl (collect_slot texts) acc paragraph) acc paragraphs
  | Other => acc
  end.

Inductive file : Type :=
  | PptxFile (prs : presentation)
  | OtherFile (content : string).

Definition filesystem : Type := gmap string file.

(** [Presentation(path)] *)
Definition Presentation (fs : filesystem) (path : string) : result presentation :=
  match fs !! path with
  | Some (PptxFile prs) => Ok prs
  | Some (OtherFile _) => Raise (PackageNotFoundError ("Package not found at " +:+ path))
  | None => Raise (PackageNotFoundError ("Package not found at " +:+ path))
  end.

(** Loop applying the translations to the collected slots; the state is the
    slot texts and [applied_count]. *)
Definition apply_translations
    (texts : gmap ref string) (text_objects : list ref) (translated_texts : list string)
  : gmap ref string * nat :=
  foldl (λ '(texts, applied_count) '(text_obj, translated_text),
           if truthy (strip translated_text)
           then (<[text_obj := translated_text]> texts, applied_count + 1)
           else (texts, applied_count))
        (texts, 0) (zip text_objects translated_texts).

(** [translate_pptx_async]: the file system after the call and the returned
    tuple, or the exception raised. *)
Definition translate_pptx_async
    (chain : Chain) (order : list nat)
    (fs : filesystem) (input_path output_path target_lang : string)
  : filesystem * result (list pyval) :=
  match Presentation fs input_path with
  | Raise e => (fs, Raise e)
  | Ok prs =>
      let '(texts_to_translate, text_objects) :=
        foldl (λ acc slide,
                 foldl (λ acc sh, collect_texts_from_shape (slot_text prs) sh acc) acc slide)
              ([], []) (slides prs) in
      if bool_decide (texts_to_translate = [])
      then (<[output_path := PptxFile prs]> fs,
            Ok [PInt (Z.of_nat (length (slides prs))); PInt 0])
      else
        match translate_texts_openai_async chain order texts_to_translate target_lang with
        | Raise e => (fs, Raise e)
        | Ok translated_texts =>
            let '(texts', applied_count) :=
              apply_translations (slot_text prs) text_objects translated_texts in
            let prs' := {| slides := slides prs; slot_text := texts' |} in
            (<[output_path := PptxFile prs']> fs,
             Ok [PInt (Z.of_nat (length (slides prs))); PInt (Z.of_nat applied_count)])
        end
  end.

(** The dictionary returned by [analyze_pptx]. *)
Record analysis : Type :=
  { pages : nat; text_count : nat; success : bool; error : option string }.

Definition analyze_pptx (fs : filesystem) (file_path : string) : result analysis :=
  try_except
    (prs ← Presentation fs file_path;
     let '(texts_to_translate, text_objects) :=
       foldl (λ acc slide,
                foldl (λ acc sh, collect_texts_from_shape (slot_text prs) sh acc) acc slide)
             ([], []) (slides prs) in
     mret {| pages := length (slides prs);
             text_count := length texts_to_translate;
             success := true;
             error := None |})
    (λ e, mret {| pages := 0; text_count := 0; success := false;
                  error := Some (str_of_exn e) |}).

End Translator.

(** ** backend/main.py: the job registry and the scheduler loop *)

Module Main.
Import PyStr Translator.

(** The values of [TranslationJob.status]: "queued", "processing",
    "completed", "failed". *)
Inductive job_status : Type := queued | processing | completed | failed.

Global Instance job_status_eq_dec : EqDecision job_status.
Proof. solve_decision. Defined.

Module TranslationJob.
Record t : Type := {
  job_id : string;
  filename : string;
  target_lang : string;
  status : job_status;
  pages : option nat;
  text_count : option nat;
  error_message : option string;
  created_at : nat;
  completed_at : option nat
}.
End TranslationJob.

Module TranslationRequest.
Record t : Type := {
  job_id : string;
  file_path : string;
  output_path : string;
  filename : string;
  target_lang : string;
  ip_address : string;
  file_size : Z;
  pages : nat;
  text_count : nat
}.
End TranslationRequest.

(** One call of [metrics_logger.log_metrics]; the processing time is a
    wall-clock measurement and is left out. *)
Record metrics_record : Type := {
  m_ip_address : string;
  m_filename : string;
  m_pages : pyval;
  m_text_count : pyval;
  m_target_lang : string;
  m_status : job_status;
  m_error_message : option string;
  m_file_size : Z;
  m_input_tokens : pyval;
  m_output_tokens : pyval;
  m_total_tokens : pyval;
  m_total_cost_usd : pyval;
  m_model_name : pyval
}.

(** The module globals, the file system, the metrics sink, and the request
    whose translation the scheduler loop is awaiting, if any. *)
Record state : Type := {
  translation_queue : list TranslationRequest.t;
  active_jobs : gmap string TranslationJob.t;
  processing_count : Z;
  files : filesystem;
  metrics_log : list metrics_record;
  queue_log : list (nat * Z);
  awaiting : option TranslationRequest.t
}.

Definition MAX_FILE_SIZE : Z := 500 * 1024 * 1024.

Definition initial_state (fs : filesystem) : state :=
  {| translation_queue := []; active_jobs := ∅; processing_count := 0;
     files := fs; metrics_log := []; queue_log := []; awaiting := None |}.

(** [job.status = st] *)
Definition set_status (st : job_status) (j : TranslationJob.t) : TranslationJob.t :=
  {| TranslationJob.job_id := TranslationJob.job_id j;
     TranslationJob.filename := TranslationJob.filename j;
     TranslationJob.target_lang := TranslationJob.target_lang j;
     TranslationJob.status := st;
     TranslationJob.pages := TranslationJob.pages j;
     TranslationJob.text_count := TranslationJob.text_count j;
     TranslationJob.error_message := TranslationJob.error_message j;
     TranslationJob.created_at := TranslationJob.created_at j;
     TranslationJob.completed_at := TranslationJob.completed_at j |}.

(** [job.status = "completed"; job.completed_at = now] *)
Definition mark_completed (now : nat) (j : TranslationJob.t) : TranslationJob.t :=
  {| TranslationJob.job_id := TranslationJob.job_id j;
     TranslationJob.filename := TranslationJob.filename j;
     TranslationJob.target_lang := TranslationJob.target_lang j;
     TranslationJob.status := completed;
     TranslationJob.pages := TranslationJob.pages j;
     TranslationJob.text_count := TranslationJob.text_count j;
     TranslationJob.error_message := TranslationJob.error_message j;
     TranslationJob.created_at := TranslationJob.created_at j;
     TranslationJob.completed_at := Some now |}.

(** [job.status = "failed"; job.error_message = msg; job.completed_at = now] *)
Definition mark_failed (msg : string) (now : nat) (j : TranslationJob.t)
  : TranslationJob.t :=
  {| TranslationJob.job_id := TranslationJob.job_id j;
     TranslationJob.filename := TranslationJob.filename j;
     TranslationJob.target_lang := TranslationJob.target_lang j;
     TranslationJob.status := failed;
     TranslationJob.pages := TranslationJob.pages j;
     TranslationJob.text_count := TranslationJob.text_count j;
     TranslationJob.error_message := Some msg;
     TranslationJob.created_at := TranslationJob.created_at j;
     TranslationJob.completed_at := Some now |}.

(** [a, b, c = tuple] *)
Definition unpack3 (tuple : list pyval) : result (pyval * pyval * pyval) :=
  match tuple with
  | [a; b; c] => Ok (a, b, c)
  | _ =>
      if decide (length tuple < 3)
      then Raise (ValueError ("not enough values to unpack (expected 3, got "
                                +:+ pretty (length tuple) +:+ ")"))
      else Raise (ValueError "too many values to unpack (expected 3)")
  end.

(** [v.get(key)] and [v.get(key, dflt)] *)
Definition py_get (v : pyval) (key : string) (dflt : pyval) : result pyval :=
  match v with
  | PDict d => Ok (default dflt (d !! key))
  | _ => Raise (AttributeError "object has no attribute 'get'")
  end.

(** Formatting a value with [:.4f] *)
Definition format_4f (v : pyval) : result unit :=
  match v with
  | PInt _ | PFloat _ | PBool _ => Ok ()
  | _ => Raise (TypeError "unsupported format string")
  end.

(** Prefix of the error message recorded for a failed job (the source has
    it in Japanese). *)
Definition error_prefix : string := "An error occurred during translation: ".

(** The body of the loop of [process_translation_queue] from the awaited
    translation to the end of the [finally] clause. *)
Definition finish_job (chain : Chain) (order : list nat) (now : nat)
    (translation_request : TranslationRequest.t) (s : state) : state :=
  let job_id := TranslationRequest.job_id translation_request in
  let '(fs, returned) :=
    translate_pptx_async chain order (files s)
      (TranslationRequest.file_path translation_request)
      (TranslationRequest.output_path translation_request)
      (TranslationRequest.target_lang translation_request) in
  (* try: *)
  let '(jobs, log, outcome) :=
    match returned ≫= unpack3 with
    | Raise e => (active_jobs s, metrics_log s, Raise e)
    | Ok (pages, text_count, token_metrics) =>
        let jobs := alter (mark_completed now) job_id (active_jobs s) in
        match
          (input_tokens ← py_get token_metrics "input_tokens" PNone;
           output_tokens ← py_get token_metrics "output_tokens" PNone;
           total_tokens ← py_get token_metrics "total_tokens" PNone;
           total_cost_usd ← py_get token_metrics "total_cost_usd" PNone;
           model_name ← py_get token_metrics "model" PNone;
           mret {| m_ip_address := TranslationRequest.ip_address translation_request;
                   m_filename := TranslationRequest.filename translation_request;
                   m_pages := pages;
                   m_text_count := text_count;
                   m_target_lang := TranslationRequest.target_lang translation_request;
                   m_status := completed;
                   m_error_message := None;
                   m_file_size := TranslationRequest.file_size translation_request;
                   m_input_tokens := input_tokens;
                   m_output_tokens := output_tokens;
                   m_total_tokens := total_tokens;
                   m_total_cost_usd := total_cost_usd;
                   m_model_name := model_name |})
        with
        | Raise e => (jobs, metrics_log s, Raise e)
        | Ok record =>
            (jobs, metrics_log s ++ [record],
             cost ← py_get token_metrics "total_cost_usd" (PFloat 0);
             format_4f cost)
        end
    end in
  (* except Exception as e: *)
  let '(jobs, log, fs) :=
    match outcome with
    | Ok _ => (jobs, log, fs)
    | Raise e =>
        let error_message := error_prefix +:+ str_of_exn e in
        (alter (mark_failed error_message now) job_id jobs,
         log ++ [{| m_ip_address := TranslationRequest.ip_address translation_request;
                    m_filename := TranslationRequest.filename translation_request;
                    m_pages := PInt (Z.of_nat (TranslationRequest.pages translation_request));
                    m_text_count :=
                      PInt (Z.of_nat (TranslationRequest.text_count translation_request));
                    m_target_lang := TranslationRequest.target_lang translation_request;
                    m_status := failed;
                    m_error_message := Some error_message;
                    m_file_size := TranslationRequest.file_size translation_request;
                    m_input_tokens := PInt 0;
                    m_output_tokens := PInt 0;
                    m_total_tokens := PInt 0;
                    m_total_cost_usd := PFloat 0;
                    m_model_name := PNone |}],
         delete (TranslationRequest.file_path translation_request) fs)
    end in
  (* finally: *)
  {| translation_queue := translation_queue s;
     active_jobs := jobs;
     processing_count := processing_count s - 1;
     files := fs;
     metrics_log := log;
     queue_log := queue_log s ++ [(length (translation_queue s), processing_count s - 1)%Z];
     awaiting := None |}.

(** One run of the scheduler loop [process_translation_queue] from the
    point where it is suspended to its next suspension: either it is
    waiting on the queue, takes the head and re-queues or starts it, or it
    is awaiting a translation and finishes that job. *)
Definition process_translation_queue
    (MAX_CONCURRENT_TRANSLATIONS : Z) (chain : Chain) (order : list nat) (now : nat)
    (s : state) : state :=
  match awaiting s with
  | Some translation_request => finish_job chain order now translation_request s
  | None =>
      match translation_queue s with
      | [] => s
      | translation_request :: rest =>
          if (MAX_CONCURRENT_TRANSLATIONS <=? processing_count s)%Z
          then
            {| translation_queue := rest ++ [translation_request];
               active_jobs := active_jobs s;
               processing_count := processing_count s;
               files := files s;
               metrics_log := metrics_log s;
               queue_log := queue_log s;
               awaiting := None |}
          else
            {| translation_queue := rest;
               active_jobs :=
                 alter (set_status processing)
                       (TranslationRequest.job_id translation_request) (active_jobs s);
               processing_count := processing_count s + 1;
               files := files s;
               metrics_log := metrics_log s;
               queue_log := queue_log s;
               awaiting := Some translation_request |}
      end
  end.

(** What the upload handler receives: the request and the values it draws
    from its environment (the fresh job id, the temporary paths, the
    current time). *)
Record upload : Type := {
  up_job_id : string;
  up_filename : string;
  up_target_lang : string;
  up_content : file;
  up_size : Z;
  up_client_ip : string;
  up_input_path : string;
  up_output_path : string;
  up_now : nat
}.

(** The response of [upload_file]. *)
Record upload_response : Type := {
  r_job_id : string;
  r_pages : nat;
  r_text_count : nat;
  r_queue_position : nat
}.

Definition with_files (fs : filesystem) (s : state) : state :=
  {| translation_queue := translation_queue s;
     active_jobs := active_jobs s;
     processing_count := processing_count s;
     files := fs;
     metrics_log := metrics_log s;
     queue_log := queue_log s;
     awaiting := awaiting s |}.

Definition upload_file (u : upload) (s : state) : state * result upload_response :=
  if (MAX_FILE_SIZE <? up_size u)%Z
  then (s, Raise (HTTPException 413 "file too large"))
  else if negb (endswith (lower (up_filename u)) ".pptx")
  then (s, Raise (HTTPException 400 "only PPTX files can be uploaded"))
  else if negb (bool_decide (up_target_lang u ∈ ["ja"; "en"]))
  then (s, Raise (HTTPException 400 "unsupported language"))
  else
    let fs := <[up_input_path u := up_content u]> (files s) in
    match analyze_pptx fs (up_input_path u) with
    | Raise e =>
        (with_files (delete (up_input_path u) fs) s,
         Raise (HTTPException 500 (str_of_exn e)))
    | Ok analysis =>
        if negb (success analysis)
        then (with_files (delete (up_input_path u) fs) s,
              Raise (HTTPException 400 (default "" (error analysis))))
        else
          let job :=
            {| TranslationJob.job_id := up_job_id u;
               TranslationJob.filename := up_filename u;
               TranslationJob.target_lang := up_target_lang u;
               TranslationJob.status := queued;
               TranslationJob.pages := Some (pages analysis);
               TranslationJob.text_count := Some (text_count analysis);
               TranslationJob.error_message := None;
               TranslationJob.created_at := up_now u;
               TranslationJob.completed_at := None |} in
          let translation_request :=
            {| TranslationRequest.job_id := up_job_id u;
               TranslationRequest.file_path := up_input_path u;
               TranslationRequest.output_path := up_output_path u;
               TranslationRequest.filename := up_filename u;
               TranslationRequest.target_lang := up_target_lang u;
               TranslationRequest.ip_address := up_client_ip u;
               TranslationRequest.file_size := up_size u;
               TranslationRequest.pages := pages analysis;
               TranslationRequest.text_count := text_count analysis |} in
          ({| translation_queue := translation_queue s ++ [translation_request];
              active_jobs := <[up_job_id u := job]> (active_jobs s);
              processing_count := processing_count s;
              files := fs;
              metrics_log := metrics_log s;
              queue_log := queue_log s;
              awaiting := awaiting s |},
           Ok {| r_job_id := up_job_id u;
                 r_pages := pages analysis;
                 r_text_count := text_count analysis;
                 r_queue_position := length (translation_queue s) + 1 |})
    end.

(** [cleanup_files], scheduled by a download: the job leaves the registry
    (the removal of the temporary directory is not tracked). *)
Definition cleanup_files (job_id : string) (s : state) : state :=
  {| translation_queue := translation_queue s;
     active_jobs := delete job_id (active_jobs s);
     processing_count := processing_count s;
     files := files s;
     metrics_log := metrics_log s;
     queue_log := queue_log s;
     awaiting := awaiting s |}.

(** [download_result]: only a completed job can be downloaded; the
    download schedules [cleanup_files]. *)
Definition download_result (job_id : string) (s : state) : state * result unit :=
  match active_jobs s !! job_id with
  | None => (s, Raise (HTTPException 404 "job not found"))
  | Some job =>
      if bool_decide (TranslationJob.status job ≠ completed)
      then (s, Raise (HTTPException 400 "translation not finished yet"))
      else (cleanup_files job_id s, Ok ())
  end.

(** [get_job_status]: the status of a job, or 404. *)
Definition get_job_status (job_id : string) (s : state) : result job_status :=
  match active_jobs s !! job_id with
  | Some job => Ok (TranslationJob.status job)
  | None => Raise (HTTPException 404 "job not found")
  end.

(** The jobs that [get_queue_status] lists as processing. *)
Definition processing_jobs (s : state) : gmap string TranslationJob.t :=
  filter (λ kv, TranslationJob.status kv.2 = processing) (active_jobs s).

(** What can happen between two suspensions of the event loop: an upload,
    a run of the scheduler loop (with the behaviour of the backend during
    the translation it awaits), or a download with its clean-up. *)
Inductive event : Type :=
  | Upload (u : upload)
  | Scheduler (chain : Chain) (order : list nat) (now : nat)
  | Download (job_id : string).

Definition step (MAX_CONCURRENT_TRANSLATIONS : Z) (s : state) (ev : event) : state :=
  match ev with
  | Upload u => (upload_file u s).1
  | Scheduler chain order now =>
      process_translation_queue MAX_CONCURRENT_TRANSLATIONS chain order now s
  | Download job_id => (download_result job_id s).1
  end.

(** The state after a sequence of events. *)
Definition run (MAX_CONCURRENT_TRANSLATIONS : Z) (fs : filesystem) (evs : list event)
  : state :=
  foldl (step MAX_CONCURRENT_TRANSLATIONS) (initial_state fs) evs.

(** Number of uploads among the events. *)
Definition is_upload (ev : event) : bool :=
  match ev with
  | Upload _ => true
  | _ => false
  end.

Definition submissions (evs : list event) : nat :=
  length (filter (λ ev, is_upload ev = true) evs).

End Main.

(** ** Test doubles and the end-to-end scenario *)

Module Scenario.
Import PyStr Translator Main.

(** The entry [{"id": ..., "translated": ...}] of a response. *)
Definition translation_entry (i t : string) : pyval :=
  PDict (<["id" := PStr i]> {["translated" := PStr t]}).

(** The response [{"translations": [...]}]. *)
Definition translations_response (entries : list pyval) : pyval :=
  PDict {["translations" := PList entries]}.

(** A backend that translates by uppercasing and answers every request
    with its entries in reverse order. *)
Definition upper_chain : Chain := λ _ _ items,
  Ok (translations_response
        (reverse ((λ it, translation_entry (id it) (upper (text it))) <$> items))).

(** A backend whose output is never valid JSON. *)
Definition invalid_json_chain : Chain := λ _ _ _,
  Raise (OutputParserException "Invalid json output").

(** A backend that answers with a JSON list instead of the mapping. *)
Definition wrong_shape_chain : Chain := λ _ _ _, Ok (PList []).

(** A backend that uppercases but leaves out the entry of [text_0]. *)
Definition omitting_chain : Chain := λ _ _ items,
  Ok (translations_response
        ((λ it, translation_entry (id it) (upper (text it)))
           <$> filter (λ it, id it ≠ "text_0") items)).

(** A deck of three slides with six text slots, five of them non-empty:
    two runs on the first slide, a group and a table on the second, a
    closing text box on the third. *)
Definition deck : presentation :=
  {| slides :=
       [ [TextContainer [[0; 1]]];
         [Group [TextContainer [[2]]; Other]; Table (Ok [[3; 4]])];
         [TextContainer [[5]]; Other] ];
     slot_text :=
       list_to_map [(0, "Hello"); (1, "world"); (2, "   ");
                    (3, "cell a"); (4, "cell b"); (5, "Thanks")] |}.

Definition the_upload : upload :=
  {| up_job_id := "job-1";
     up_filename := "deck.pptx";
     up_target_lang := "en";
     up_content := PptxFile deck;
     up_size := 4096;
     up_client_ip := "127.0.0.1";
     up_input_path := "/tmp/a/input_job-1.pptx";
     up_output_path := "/tmp/a/output_job-1.pptx";
     up_now := 0 |}.

(** The same upload under another job id. *)
Definition upload_as (job_id : string) : upload :=
  {| up_job_id := job_id;
     up_filename := up_filename the_upload;
     up_target_lang := up_target_lang the_upload;
     up_content := up_content the_upload;
     up_size := up_size the_upload;
     up_client_ip := up_client_ip the_upload;
     up_input_path := "/tmp/" +:+ job_id +:+ "/input.pptx";
     up_output_path := "/tmp/" +:+ job_id +:+ "/output.pptx";
     up_now := up_now the_upload |}.

(** Three jobs are uploaded while the bound is 1, then the scheduler loop
    runs once. *)
Definition three_uploads : list event :=
  [Upload (upload_as "job-1"); Upload (upload_as "job-2"); Upload (upload_as "job-3");
   Scheduler upper_chain [] 1].

(** Twelve texts, hence two batches. *)
Definition twelve_texts : list string :=
  ["one"; "two"; " "; "three"; "four"; "five"; ""; "six"; "seven"; "eight";
   " nine"; "ten "; "eleven"; "twelve"].

(** The job is uploaded, then the scheduler loop runs twice: it starts the
    job, then finishes it. *)
Definition events : list event :=
  [Upload the_upload; Scheduler upper_chain [] 1; Scheduler upper_chain [] 2].

(** The status of the job after each event. *)
Definition status_history (MAX : Z) (evs : list event) : list (result job_status) :=
  (λ n, get_job_status "job-1" (run MAX ∅ (take n evs))) <$> seq 1 (length evs).

(** The error message recorded for a job. *)
Definition error_message_of (job_id : string) (s : state) : option string :=
  active_jobs s !! job_id ≫= TranslationJob.error_message.

(** The texts of the given slots in the document saved at [path]. *)
Definition saved_texts (s : state) (path : string) (objs : list ref)
  : option (list string) :=
  match files s !! path with
  | Some (PptxFile prs) => Some (get_text (slot_text prs) <$> objs)
  | _ => None
  end.

End Scenario.

(** ** Notions used to state the properties *)

Module Properties.
Import PyStr Translator Main.

(** The entries of [texts] that are sent to the backend, each with its
    index in [texts]. *)
Definition selected (texts : list string) : list (nat * string) :=
  filter (λ p, truthy (strip p.2) = true) (enumerate texts).

(** The item built for the text [p.2] found at index [p.1]. *)
Definition item_of (p : nat * string) : item :=
  {| id := "text_" +:+ pretty p.1; text := strip p.2 |}.

(** [final_results[p.1] = p.2] *)
Definition put (acc : list string) (p : nat * string) : list string :=
  <[p.1 := p.2]> acc.

(** The translated text, or the source text when the translation is empty
    or whitespace. *)
Definition resolve (translated original : string) : string :=
  if truthy (strip translated) then translated else original.

(** [v] is an entry [{"id": p.1, "translated": p.2}]. *)
Definition is_entry (v : pyval) (p : string * string) : Prop :=
  py_getitem v "id" = Ok (PStr p.1) ∧ py_getitem v "translated" = Ok (PStr p.2).

(** The response is a mapping whose "translations" hold, in any order, one
    entry per item of the request, keyed by the id of the item. *)
Definition keyed_response (translate : item → string) (items : list item)
    (response : result pyval) : Prop :=
  ∃ d entries pairs,
    response = Ok (PDict d) ∧ d !! "translations" = Some (PList entries)
    ∧ Forall2 is_entry entries pairs
    ∧ pairs ≡ₚ (λ it, (id it, translate it)) <$> items.

(** A backend that answers every request, whenever it completes, with the
    translations keyed by id, in an order of its choice. *)
Definition keyed_by_id (translate : item → string) (chain : Chain) : Prop :=
  ∀ rank lang items, keyed_response translate items (chain rank lang items).

(** The response is unusable as a whole: the call raised (invalid JSON, a
    backend error) or the value is not a mapping with "translations". *)
Definition unusable (response : result pyval) : Prop :=
  match response with
  | Raise _ => True
  | Ok v => is_dict v && dict_contains v "translations" = false
  end.

(** No entry of the response carries the id [i]. *)
Definition omits_id (response : result pyval) (i : string) : Prop :=
  ∀ v translations entries,
    response = Ok v → py_getitem v "translations" = Ok translations →
    py_iter translations = Ok entries →
    Forall (λ e, py_getitem e "id" ≠ Ok (PStr i)) entries.

(** The collection pass of [translate_pptx_async] and [analyze_pptx]: the
    loop over the slides and their shapes. *)
Definition collect (prs : presentation) : collected :=
  foldl (λ acc slide,
           foldl (λ acc sh, collect_texts_from_shape (slot_text prs) sh acc) acc slide)
        ([], []) (slides prs).

(** What [translate_pptx_async] does with the collected texts and slots. *)
Definition translate_collected
    (chain : Chain) (order : list nat) (fs : filesystem) (prs : presentation)
    (c : collected) (output_path target_lang : string)
  : filesystem * result (list pyval) :=
  if bool_decide (c.1 = [])
  then (<[output_path := PptxFile prs]> fs,
        Ok [PInt (Z.of_nat (length (slides prs))); PInt 0])
  else
    match translate_texts_openai_async chain order c.1 target_lang with
    | Raise e => (fs, Raise e)
    | Ok translated_texts =>
        let '(texts', applied_count) :=
          apply_translations (slot_text prs) c.2 translated_texts in
        (<[output_path := PptxFile {| slides := slides prs; slot_text := texts' |}]> fs,
         Ok [PInt (Z.of_nat (length (slides prs))); PInt (Z.of_nat applied_count)])
    end.

(** The invariant of the scheduler: while the loop waits on the queue no
    job is processing and the counter is 0; while it awaits a translation
    the counter is 1, below the bound, and only the awaited job can be
    processing. *)
Definition scheduler_inv (MAX : Z) (s : state) : Prop :=
  match awaiting s with
  | None =>
      processing_count s = 0%Z
      ∧ ∀ job_id job, active_jobs s !! job_id = Some job →
                      TranslationJob.status job ≠ processing
  | Some translation_request =>
      processing_count s = 1%Z ∧ (1 ≤ MAX)%Z
      ∧ ∀ job_id job, active_jobs s !! job_id = Some job →
                      TranslationJob.status job = processing →
                      job_id = TranslationRequest.job_id translation_request
  end.

End Properties.

(** ** Further notions: batches and the slots of a document *)

Module Coverage.
Import PyStr Translator Main Properties.

(** The chunks that [translate_texts_openai_async] hands to
    [process_chunk]: [non_empty_texts[i:i + 10]] for [i] in
    [range(0, len(non_empty_texts), 10)]. *)
Definition batches (non_empty_texts : list item) : list (list item) :=
  (λ i, slice non_empty_texts i (i + 10)) <$> range_step (length non_empty_texts) 10.

(** The text slots that [collect_texts_from_shape] visits in a shape, in
    the order of the visit. *)
Fixpoint shape_slots (sh : shape) : list ref :=
  match sh with
  | Group shapes => concat (shape_slots <$> shapes)
  | Table (Ok rows) => concat rows
  | Table (Raise _) => []
  | TextContainer paragraphs => concat paragraphs
  | Other => []
  end.

(** The slots of a presentation in document order: slide by slide, shape
    by shape. *)
Definition presentation_slots (prs : presentation) : list ref :=
  concat ((λ slide, concat (shape_slots <$> slide)) <$> slides prs).

(** The slot holds text that is not empty after stripping. *)
Definition non_blank (texts : gmap ref string) (obj : ref) : Prop :=
  truthy (strip (get_text texts obj)) = true.

Global Instance non_blank_dec texts obj : Decision (non_blank texts obj).
Proof. unfold non_blank. apply _. Defined.


(** An entry of a response that cannot be read: it has no "id" or no
    "translated". *)
Definition malformed (e : pyval) : Prop :=
  (∃ x, py_getitem e "id" = Raise x) ∨ (∃ x, py_getitem e "translated" = Raise x).

(** A backend whose response holds a correct entry for every item and one
    stray string among the entries. *)
Definition stray_entry_chain : Chain := λ _ _ items,
  Ok (Scenario.translations_response
        (((λ it, Scenario.translation_entry (id it) (upper (text it))) <$> items)
           ++ [PStr "done"])).

(** A backend that uppercases the batch that holds [text_0] and fails on
    every other batch. *)
Definition first_batch_only_chain : Chain := λ rank lang items,
  if bool_decide ("text_0" ∈ id <$> items)
  then Scenario.upper_chain rank lang items
  else Raise (RuntimeError "backend unavailable").

(** A backend that uppercases batches of one to ten items and fails on
    anything else. *)
Definition bounded_chain : Chain := λ rank lang items,
  if bool_decide (1 ≤ length items ≤ 10)
  then Scenario.upper_chain rank lang items
  else Raise (RuntimeError "request too large").

End Coverage.

(** ** backend/token_counter.py: token counting and the estimate *)

Module TokenCounting.
Import PyStr PyNum TokenCounter.

(** [float(z)] as the arithmetic does it for an integer operand: the
    nearest float, or OverflowError. *)
Definition float_of_int (z : Z) : result float :=
  let f := SF2Prim (binary_normalize prec emax z 0 false) in
  if is_infinity f
  then Raise (OverflowError "int too large to convert to float")
  else Ok f.

(** [int(f)]: truncation towards zero. *)
Definition int_of_float (f : float) : result Z :=
  match Prim2SF f with
  | S754_zero _ => Ok 0%Z
  | S754_finite s m e =>
      let magnitude :=
        if (0 <=? e)%Z then Z.shiftl (Z.pos m) e else Z.shiftr (Z.pos m) (- e) in
      Ok (if s then (- magnitude)%Z else magnitude)
  | S754_infinity _ => Raise (OverflowError "cannot convert float infinity to integer")
  | S754_nan => Raise (ValueError "cannot convert float NaN to integer")
  end.

(** A tokenizer: [enc.encode]. *)
Definition encoding : Type := string → list nat.

Section Tokenizer.

(** [tiktoken.encoding_for_model]: the tokenizer of a model, when the
    model is known (KeyError otherwise), and the encoding [o200k_base]. *)
Variable encoding_for_model : string → option encoding.
Variable o200k_base : encoding.

(** [try: tiktoken.encoding_for_model(model) except KeyError:
    tiktoken.get_encoding("o200k_base")] *)
Definition select_encoding (model : string) : encoding :=
  default o200k_base (encoding_for_model model).

(** The state of a [TiktokenCountCallback]. *)
Record callback : Type := {
  model : string;
  enc : encoding;
  input_tokens : Z;
  output_tokens : Z;
  _current_run_outputs : list string
}.

(** [TiktokenCountCallback(model)] *)
Definition new_callback (model : string) : callback :=
  {| model := model; enc := select_encoding model;
     input_tokens := 0; output_tokens := 0; _current_run_outputs := [] |}.

(** A generation of a response: its [text] attribute, and the [content]
    of its [message] attribute, when it has them. *)
Record generation : Type := {
  gen_text : option string;
  gen_message_content : option string
}.

(** A response: its [generations] attribute, when it has one. *)
Record llm_response : Type := { generations : option (list (list generation)) }.

Definition count (e : encoding) (s : string) : Z := Z.of_nat (length (e s)).

Definition on_llm_start (cb : callback) (prompts : list string) : callback :=
  {| model := model cb; enc := enc cb;
     input_tokens := foldl (λ n prompt, (n + count (enc cb) prompt)%Z) (input_tokens cb) prompts;
     output_tokens := output_tokens cb;
     _current_run_outputs := _current_run_outputs cb |}.

Definition on_llm_new_token (cb : callback) (token : string) : callback :=
  {| model := model cb; enc := enc cb;
     input_tokens := input_tokens cb;
     output_tokens := output_tokens cb;
     _current_run_outputs := _current_run_outputs cb ++ [token] |}.

(** ["".join(parts)] *)
Definition join (parts : list string) : string := foldr String.append "" parts.

(** The tokens counted for one generation. *)
Definition generation_tokens (e : encoding) (g : generation) : Z :=
  match gen_text g with
  | Some t => count e t
  | None =>
      match gen_message_content g with
      | Some c => count e c
      | None => 0%Z
      end
  end.

Definition on_llm_end (cb : callback) (response : llm_response) : callback :=
  match _current_run_outputs cb with
  | _ :: _ =>
      {| model := model cb; enc := enc cb;
         input_tokens := input_tokens cb;
         output_tokens :=
           (output_tokens cb + count (enc cb) (join (_current_run_outputs cb)))%Z;
         _current_run_outputs := [] |}
  | [] =>
      match generations response with
      | Some (generation_list :: rest) =>
          {| model := model cb; enc := enc cb;
             input_tokens := input_tokens cb;
             output_tokens :=
               foldl (λ n generation_list,
                        foldl (λ n g, (n + generation_tokens (enc cb) g)%Z) n generation_list)
                     (output_tokens cb) (generation_list :: rest);
             _current_run_outputs := _current_run_outputs cb |}
      | _ => cb
      end
  end.

(** The calls that one LLM call makes on the callback: the start with the
    prompts, one call per streamed token, the end with the response. *)
Definition llm_call (cb : callback) (prompts tokens : list string)
    (response : llm_response) : callback :=
  on_llm_end (foldl on_llm_new_token (on_llm_start cb prompts) tokens) response.

(** The property [total_tokens]. *)
Definition total_tokens (cb : callback) : Z := (input_tokens cb + output_tokens cb)%Z.

Definition get_cost_breakdown (cb : callback) : result cost_breakdown :=
  calculate_cost (model cb) (input_tokens cb) (output_tokens cb).

(** The dictionary returned by [get_metrics]. *)
Record metrics : Type := {
  metrics_model : string;
  metrics_input_tokens : Z;
  metrics_output_tokens : Z;
  metrics_total_tokens : Z;
  input_cost_usd : float;
  output_cost_usd : float;
  total_cost_usd : float
}.

Definition get_metrics (cb : callback) : result metrics :=
  cost_breakdown ← get_cost_breakdown cb;
  mret {| metrics_model := model cb;
          metrics_input_tokens := input_tokens cb;
          metrics_output_tokens := output_tokens cb;
          metrics_total_tokens := total_tokens cb;
          input_cost_usd := input_cost cost_breakdown;
          output_cost_usd := output_cost cost_breakdown;
          total_cost_usd := total_cost cost_breakdown |}.

Definition reset_counters (cb : callback) : callback :=
  {| model := model cb; enc := enc cb;
     input_tokens := 0; output_tokens := 0; _current_run_outputs := [] |}.

(** [count_tokens_text] *)
Definition count_tokens_text (text model : string) : Z :=
  count (select_encoding model) text.

(** The dictionary returned by [estimate_translation_cost]. *)
Record estimate : Type := {
  estimate_model : string;
  text_count : nat;
  estimated_input_tokens : Z;
  estimated_output_tokens : Z;
  estimated_total_tokens : Z;
  estimated_cost_breakdown : cost_breakdown
}.

Definition estimate_translation_cost (texts : list string) (target_lang model : string)
  : result estimate :=
  let total_input_tokens :=
    foldl Z.add 0%Z
      ((λ text, count_tokens_text text model)
         <$> filter (λ text, truthy (strip text) = true) texts) in
  as_float ← float_of_int total_input_tokens;
  estimated_output_tokens ← int_of_float (as_float * 1.2)%float;
  cost_breakdown ← calculate_openai_cost model total_input_tokens estimated_output_tokens;
  mret {| estimate_model := model;
          text_count := length (filter (λ t, truthy (strip t) = true) texts);
          estimated_input_tokens := total_input_tokens;
          estimated_output_tokens := estimated_output_tokens;
          estimated_total_tokens := (total_input_tokens + estimated_output_tokens)%Z;
          estimated_cost_breakdown := cost_breakdown |}.

End Tokenizer.

(** A tokenizer for the examples: one token per character. *)
Definition char_encoding : encoding := λ s, seq 0 (String.length s).

End TokenCounting.

(** ** backend/main.py: the queue report and the history of a run *)

Module Service.
Import PyStr Translator Main.

(** The jobs that [get_queue_status] lists as queued. *)
Definition queued_jobs (s : state) : gmap string TranslationJob.t :=
  filter (λ kv, TranslationJob.status kv.2 = queued) (active_jobs s).

(** The counts in the response of [get_queue_status] (the listing of the
    queued jobs by creation time is left out). *)
Record queue_report : Type := {
  queue_size : nat;
  report_processing_count : nat;
  max_concurrent : Z
}.

Definition get_queue_status (MAX_CONCURRENT_TRANSLATIONS : Z) (s : state) : queue_report :=
  {| queue_size := size (queued_jobs s);
     report_processing_count := size (processing_jobs s);
     max_concurrent := MAX_CONCURRENT_TRANSLATIONS |}.

(** The job ids drawn by the uploads among the events. *)
Definition upload_ids (evs : list event) : list string :=
  omap (λ ev, match ev with Upload u => Some (up_job_id u) | _ => None end) evs.

(** The requests that the uploads among the events put on the queue, in
    the order of the uploads, when the events happen from the state [s]. *)
Fixpoint accepted (MAX : Z) (s : state) (evs : list event) : list TranslationRequest.t :=
  match evs with
  | [] => []
  | ev :: evs =>
      match ev with
      | Upload u =>
          drop (length (translation_queue s)) (translation_queue (upload_file u s).1)
      | _ => []
      end ++ accepted MAX (step MAX s ev) evs
  end.

(** The requests whose translation the scheduler loop starts, in the order
    in which it starts them. *)
Fixpoint started (MAX : Z) (s : state) (evs : list event) : list TranslationRequest.t :=
  match evs with
  | [] => []
  | ev :: evs =>
      match awaiting s, awaiting (step MAX s ev) with
      | None, Some translation_request => [translation_request]
      | _, _ => []
      end ++ started MAX (step MAX s ev) evs
  end.

(** The registry and the queue agree: the requests on the queue have
    distinct job ids, they are the queued jobs of the registry, the awaited
    request is a processing job, and no job is completed. *)
Record registry_inv (s : state) : Prop := {
  queue_ids_NoDup : NoDup (TranslationRequest.job_id <$> translation_queue s);
  queue_registered :
    ∀ r, r ∈ translation_queue s →
         ∃ job, active_jobs s !! TranslationRequest.job_id r = Some job
                ∧ TranslationJob.status job = queued;
  queued_on_queue :
    ∀ job_id job, active_jobs s !! job_id = Some job →
                  TranslationJob.status job = queued →
                  job_id ∈ TranslationRequest.job_id <$> translation_queue s;
  awaited_registered :
    ∀ r, awaiting s = Some r →
         ∃ job, active_jobs s !! TranslationRequest.job_id r = Some job
                ∧ TranslationJob.status job = processing;
  processing_awaited :
    ∀ job_id job, active_jobs s !! job_id = Some job →
                  TranslationJob.status job = processing →
                  ∃ r, awaiting s = Some r ∧ job_id = TranslationRequest.job_id r
}.

(** No job of the registry is completed. *)
Definition none_completed (s : state) : Prop :=
  ∀ job_id job, active_jobs s !! job_id = Some job → TranslationJob.status job ≠ completed.

(** Three uploads under distinct job ids, the loop runs in between. *)
Definition busy_day : list event :=
  [Upload (Scenario.upload_as "job-1"); Scheduler Scenario.upper_chain [] 1;
   Upload (Scenario.upload_as "job-2"); Scheduler Scenario.invalid_json_chain [] 2;
   Upload (Scenario.upload_as "job-3"); Scheduler Scenario.upper_chain [] 3].

End Service.

(** ** backend/main.py: the address of the client *)

Module Http.
Import PyStr Translator.

(** [s.split(sep)] for a separator of one character. *)
Fixpoint split (sep : ascii) (s : string) : list string :=
  match s with
  | EmptyString => [EmptyString]
  | String c s' =>
      if Ascii.eqb c sep then EmptyString :: split sep s'
      else
        match split sep s' with
        | field :: fields => String c field :: fields
        | [] => [String c EmptyString]
        end
  end.

(** What [get_client_ip] reads of a request: the headers, keyed by their
    names in lower case since the lookup of a header ignores case, and the
    host of the peer when there is one. *)
Record request : Type := {
  headers : gmap string string;
  client : option string
}.

(** [request.headers.get(name)] *)
Definition headers_get (request : request) (name : string) : option string :=
  headers request !! lower name.

Definition get_client_ip (request : request) : result string :=
  let forwarded_for := headers_get request "X-Forwarded-For" in
  if from_option truthy false forwarded_for
  then
    first ← list_getitem (split "," (default "" forwarded_for)) 0;
    mret (strip first)
  else
    let real_ip := headers_get request "X-Real-IP" in
    if from_option truthy false real_ip
    then mret (default "" real_ip)
    else mret (default "unknown" (client request)).

End Http.


(** * Properties *)

Arguments PyStr.strip : simpl never.

(** * Facts about the string operations *)

Section PyStrFacts.
Import PyStr.

Lemma isspace_lower_char c : isspace (lower_char c) = isspace c.
Proof. by destruct c as [[] [] [] [] [] [] [] []]. Qed.

Lemma lower_char_idemp c : lower_char (lower_char c) = lower_char c.
Proof. by destruct c as [[] [] [] [] [] [] [] []]. Qed.

Lemma lower_idemp s : lower (lower s) = lower s.
Proof. induction s as [|c s IH]; simpl; [done|]. by rewrite lower_char_idemp, IH. Qed.

Lemma is_empty_lower s : is_empty (lower s) = is_empty s.
Proof. by destruct s. Qed.

Lemma lower_lstrip s : lower (lstrip s) = lstrip (lower s).
Proof.
  induction s as [|c s IH]; simpl; [done|].
  rewrite isspace_lower_char. by destruct (isspace c).
Qed.

Lemma lower_rstrip s : lower (rstrip s) = rstrip (lower s).
Proof.
  induction s as [|c s IH]; simpl; [done|].
  rewrite isspace_lower_char, <- IH, is_empty_lower.
  by destruct (isspace c && is_empty (rstrip s)).
Qed.

Lemma lower_strip s : lower (strip s) = strip (lower s).
Proof. unfold strip. by rewrite lower_rstrip, lower_lstrip. Qed.

Lemma rstrip_idemp s : rstrip (rstrip s) = rstrip s.
Proof.
  induction s as [|c s IH]; simpl; [done|].
  destruct (isspace c && is_empty (rstrip s)) eqn:E; simpl; [done|].
  by rewrite IH, E.
Qed.

(** A left-stripped string is empty or starts with a non-space. *)
Lemma lstrip_head s :
  lstrip s = EmptyString ∨ ∃ c s', lstrip s = String c s' ∧ isspace c = false.
Proof.
  induction s as [|c s IH]; simpl; [by left|].
  destruct (isspace c) eqn:E; [done|]. right. eauto.
Qed.

Lemma strip_idemp s : strip (strip s) = strip s.
Proof.
  unfold strip. destruct (lstrip_head s) as [->|(c & s' & -> & Hc)]; [done|].
  simpl. rewrite Hc. simpl. rewrite Hc. simpl. rewrite Hc. simpl.
  by rewrite rstrip_idemp.
Qed.

Lemma truthy_nonempty s : truthy s = true ↔ s ≠ EmptyString.
Proof. by destruct s. Qed.

Lemma strip_empty : strip EmptyString = EmptyString.
Proof. done. Qed.

(** A string that survives stripping is not empty. *)
Lemma truthy_strip_nonempty s : truthy (strip s) = true → s ≠ EmptyString.
Proof. by destruct s. Qed.

End PyStrFacts.

(** * Usage accounting *)

Section TokenCounterFacts.
Import PyStr PyNum TokenCounter.

(** The chain of tests in [_normalize_model_name] is the first match in
    the list of patterns. *)
Lemma normalize_first_match model_name :
  _normalize_model_name model_name = spec_normalize model_name.
Proof.
  unfold _normalize_model_name, spec_normalize, spec_patterns.
  destruct (in_PRICING _); [done|]. cbn [first_match].
  repeat (destruct (contains _ _); [done|]). done.
Qed.

Lemma descending_specificity_sound patterns :
  descending_specificity patterns = true →
  ∀ i j p q, i < j → patterns !! i = Some p → patterns !! j = Some q →
             contains p q = false.
Proof.
  induction patterns as [|p0 rest IH]; intros Hd i j p q Hij Hi Hj; [done|].
  cbn [descending_specificity] in Hd. apply andb_prop in Hd as [Hhead Hrest].
  destruct j as [|j]; [lia|]. cbn in Hj.
  destruct i as [|i]; cbn in Hi.
  - injection Hi as <-. rewrite forallb_forall in Hhead.
    apply negb_true_iff, Hhead, list_elem_of_In. by eapply list_elem_of_lookup_2.
  - eapply (IH Hrest i j); [lia|done..].
Qed.

Lemma first_match_Some patterns name p :
  first_match patterns name = Some p →
  ∃ i, patterns !! i = Some p ∧ contains p name = true
       ∧ ∀ j q, j < i → patterns !! j = Some q → contains q name = false.
Proof.
  induction patterns as [|p0 rest IH]; cbn; [done|].
  destruct (contains p0 name) eqn:E.
  - intros [= <-]. exists 0. split_and!; [done..|]. intros; lia.
  - intros (i & Hi & Hp & Hlt)%IH. exists (S i). split_and!; [done..|].
    intros [|j] q Hj; cbn; [by intros [= <-]|]. intros ?. apply (Hlt j); [lia|done].
Qed.

(** The pattern chosen for a name is never the parent family of another
    pattern that also occurs in the name. *)
Lemma first_match_most_specific name p q :
  first_match spec_patterns name = Some p →
  q ∈ spec_patterns → contains q name = true → contains p q = true → p = q.
Proof.
  intros (i & Hi & _ & Hfirst)%first_match_Some (j & Hj)%list_elem_of_lookup_1 Hq Hpq.
  destruct (decide (i = j)) as [->|Hne]; [congruence|].
  destruct (decide (i < j)) as [Hlt|Hge].
  - pose proof (descending_specificity_sound spec_patterns eq_refl i j p q Hlt Hi Hj).
    congruence.
  - specialize (Hfirst j q ltac:(lia) Hj). congruence.
Qed.

Lemma PRICING_default : PRICING !! "default" = Some default_tier.
Proof. by vm_compute. Qed.

Lemma calculate_cost_cost_at model_name input_tokens output_tokens :
  calculate_cost model_name input_tokens output_tokens =
  cost_at (default default_tier (PRICING !! _normalize_model_name model_name))
          input_tokens output_tokens.
Proof.
  unfold calculate_cost, cost_at, PRICING_getitem. rewrite PRICING_default. cbn.
  destruct (int_truediv input_tokens 1000); cbn; [|done].
  by destruct (int_truediv output_tokens 1000).
Qed.

(** A name that is not in the table and contains no pattern is billed at
    the default tier. *)
Lemma no_match_default_tier model_name input_tokens output_tokens :
  in_PRICING (strip (lower model_name)) = false →
  first_match spec_patterns (strip (lower model_name)) = None →
  calculate_cost model_name input_tokens output_tokens =
  cost_at default_tier input_tokens output_tokens.
Proof.
  intros Hexact Hnone. rewrite calculate_cost_cost_at, normalize_first_match.
  unfold spec_normalize. rewrite Hexact, Hnone. cbn [default from_option].
  by rewrite PRICING_default.
Qed.

(** The normalised name only depends on the lowercased, stripped name. *)
Lemma normalize_lower_strip model_name :
  _normalize_model_name (lower (strip model_name)) = _normalize_model_name model_name.
Proof.
  unfold _normalize_model_name.
  by rewrite lower_idemp, lower_strip, strip_idemp.
Qed.

(** C6: the model name is normalised by exact match against the pricing
    table first, then by the first pattern of the list that occurs in the
    name, and to the default when none does; the list is in descending
    specificity (no pattern occurs inside one tried later); a name that is
    not in the table after normalisation is billed at the default tier. *)
Theorem normalization_exact_then_specific_then_default
    (model_name : string) (input_tokens output_tokens : Z) :
  _normalize_model_name model_name = spec_normalize model_name
  ∧ descending_specificity spec_patterns = true
  ∧ calculate_cost model_name input_tokens output_tokens =
      cost_at (default default_tier (PRICING !! spec_normalize model_name))
              input_tokens output_tokens
  ∧ PRICING !! "default" = Some default_tier.
Proof.
  split_and!.
  - apply normalize_first_match.
  - by vm_compute.
  - rewrite <- normalize_first_match. apply calculate_cost_cost_at.
  - apply PRICING_default.
Qed.

(** C7: for "gpt-4o-mini" with 1000 input and 500 output tokens the total
    cost is 0.000450 USD: the tier is 0.00015 and 0.0006 USD per 1K tokens,
    and the cost is the rounded sum of tokens / 1000 times the price. *)
Theorem cost_example_gpt_4o_mini :
  calculate_cost "gpt-4o-mini" 1000 500 =
    Ok {| input_cost := 0.00015; output_cost := 0.0003; total_cost := 0.00045 |}
  ∧ PRICING !! "gpt-4o-mini" = Some {| input := 0.00015; output := 0.0006 |}
  ∧ round6 (1 * 0.00015 + 0.5 * 0.0006)%float = 0.00045%float
  ∧ int_truediv 1000 1000 = Ok 1%float ∧ int_truediv 500 1000 = Ok 0.5%float.
Proof. split_and!; by vm_compute. Qed.

(** C10: the cost does not depend on the letter case or on the surrounding
    whitespace of the model name. *)
Theorem cost_case_whitespace_invariant
    (model_name : string) (input_tokens output_tokens : Z) :
  calculate_cost model_name input_tokens output_tokens =
  calculate_cost (lower (strip model_name)) input_tokens output_tokens.
Proof. by rewrite !calculate_cost_cost_at, normalize_lower_strip. Qed.

End TokenCounterFacts.

(** * The result monad and the list helpers *)

Section ResultFacts.
Context {A B : Type}.
Implicit Types (f : A → result B) (l : list A) (k : list B).

Lemma mapM_Ok_1 f l k : mapM f l = Ok k → Forall2 (λ x y, f x = Ok y) l k.
Proof.
  revert k. induction l as [|x l IH]; intros k; cbn.
  - intros [= <-]. constructor.
  - destruct (f x) as [y|] eqn:Hy; cbn; [|done].
    destruct (mapM f l) as [k'|] eqn:Hk; cbn; [|done].
    intros [= <-]. constructor; auto.
Qed.

Lemma mapM_Ok_2 f l k : Forall2 (λ x y, f x = Ok y) l k → mapM f l = Ok k.
Proof.
  induction 1 as [|x y l k Hxy _ IH]; cbn; [done|]. by rewrite Hxy; cbn; rewrite IH.
Qed.

Lemma try_except_fallback (body : result B) (fallback : B) (P : B → Prop) :
  P fallback → (∀ out, body = Ok out → P out) →
  ∃ out, try_except body (λ _, mret fallback) = Ok out ∧ P out.
Proof. destruct body as [out|e]; cbn; eauto. Qed.

End ResultFacts.

Section ListFacts.
Import Translator.
Context {A : Type}.
Implicit Types (l : list A).

Lemma foldl_app_concat (ls : list (list A)) (acc : list A) :
  foldl (λ acc r, acc ++ r) acc ls = acc ++ concat ls.
Proof.
  revert acc. induction ls as [|r ls IH]; intros acc; cbn.
  - by rewrite app_nil_r.
  - by rewrite IH, app_assoc.
Qed.

Lemma slice_take_drop l i n : slice l i (i + n) = take n (drop i l).
Proof. unfold slice. f_equal. lia. Qed.

Lemma slice_sublist l i j : sublist (slice l i j) l.
Proof.
  unfold slice. etrans; [apply sublist_take|apply sublist_drop].
Qed.

(** Cutting a list into consecutive slices of [b] elements loses nothing. *)
Lemma concat_slices l b m :
  length l ≤ m * b →
  concat ((λ k, take b (drop (k * b) l)) <$> seq 0 m) = l.
Proof.
  revert l. induction m as [|m IH]; intros l Hlen.
  - cbn. destruct l; [done|cbn in Hlen; lia].
  - cbn [seq fmap list_fmap concat]. rewrite <- fmap_S_seq, <- list_fmap_compose.
    cbn. rewrite drop_0.
    transitivity (take b l ++ drop b l); [|apply take_drop]. f_equal.
    transitivity (concat ((λ k, take b (drop (k * b) (drop b l))) <$> seq 0 m));
      [|apply IH; rewrite length_drop; lia].
    f_equal. apply list_fmap_ext. intros _ k _. cbn. by rewrite drop_drop.
Qed.

Lemma concat_range_slices l b :
  0 < b →
  concat ((λ i, slice l i (i + b)) <$> range_step (length l) b) = l.
Proof.
  intros Hb. unfold range_step. rewrite <- list_fmap_compose.
  erewrite list_fmap_ext; [apply (concat_slices l b)|].
  - pose proof (Nat.div_mod_eq (length l + b - 1) b).
    pose proof (Nat.mod_upper_bound (length l + b - 1) b). nia.
  - intros _ k _. cbn. apply slice_take_drop.
Qed.

Lemma imap_snd (f : nat → A → nat * A) l :
  (∀ i x, (f i x).2 = x) → (imap f l).*2 = l.
Proof.
  revert f. induction l as [|x l IH]; intros f Hf; cbn; [done|].
  rewrite Hf. f_equal. apply IH. intros i y. apply Hf.
Qed.

Lemma imap_fst (f : nat → A → nat * A) n l :
  (∀ i x, (f i x).1 = n + i) → (imap f l).*1 = seq n (length l).
Proof.
  revert f n. induction l as [|x l IH]; intros f n Hf; cbn; [done|].
  rewrite Hf, Nat.add_0_r. f_equal. apply IH. intros i y. cbn. rewrite Hf. lia.
Qed.

Lemma enumerate_snd l : (enumerate l).*2 = l.
Proof. by apply imap_snd. Qed.

Lemma enumerate_fst l : (enumerate l).*1 = seq 0 (length l).
Proof. by apply imap_fst. Qed.

Lemma enumerate_lookup l i x : enumerate l !! i = Some (i, x) ↔ l !! i = Some x.
Proof.
  unfold enumerate. rewrite list_lookup_imap.
  destruct (l !! i); cbn; naive_solver.
Qed.

Lemma enumerate_lookup_Some l k i x : enumerate l !! k = Some (i, x) → i = k ∧ l !! k = Some x.
Proof.
  unfold enumerate. rewrite list_lookup_imap.
  destruct (l !! k); cbn; naive_solver.
Qed.

End ListFacts.

(** * Batched translation *)


Section Selection.
Import PyStr Translator Properties.
Implicit Types (texts : list string) (p : nat * string).

Lemma collect_non_empty_selected texts :
  collect_non_empty texts = (item_of <$> selected texts, (selected texts).*1).
Proof.
  unfold collect_non_empty, selected. generalize (enumerate texts) as l.
  assert (H : ∀ (l : list (nat * string)) a b,
    foldl (λ '(non_empty_texts, text_indices) '(i, t),
             if truthy (strip t)
             then (non_empty_texts ++ [{| id := "text_" +:+ pretty i; text := strip t |}],
                   text_indices ++ [i])
             else (non_empty_texts, text_indices)) (a, b) l
    = (a ++ (item_of <$> filter (λ p, truthy (strip p.2) = true) l),
       b ++ (filter (λ p, truthy (strip p.2) = true) l).*1)).
  { induction l as [|[i t] l IH]; intros a b.
    - cbn. by rewrite !app_nil_r.
    - rewrite filter_cons. cbn [foldl snd]. destruct (truthy (strip t)) eqn:E.
      + rewrite decide_True by done. rewrite IH. cbn. by rewrite <- !app_assoc.
      + rewrite decide_False by done. apply IH. }
  intros l. apply (H l [] []).
Qed.

Lemma selected_lookup texts k p :
  selected texts !! k = Some p → texts !! p.1 = Some p.2 ∧ truthy (strip p.2) = true.
Proof.
  intros Hk. apply list_elem_of_lookup_2 in Hk.
  apply list_elem_of_filter in Hk as [Hp Hin].
  apply list_elem_of_lookup_1 in Hin as [j Hj]. destruct p as [i t].
  by apply enumerate_lookup_Some in Hj as [-> ?].
Qed.

Lemma selected_elem texts i t :
  (i, t) ∈ selected texts ↔ texts !! i = Some t ∧ truthy (strip t) = true.
Proof.
  unfold selected. rewrite list_elem_of_filter. cbn. split.
  - intros [? (j & Hj)%list_elem_of_lookup_1].
    by apply enumerate_lookup_Some in Hj as [-> ?].
  - intros [Hi ?]. split; [done|].
    apply list_elem_of_lookup. exists i. by apply enumerate_lookup.
Qed.

Lemma selected_indices_NoDup texts : NoDup (selected texts).*1.
Proof.
  eapply sublist_NoDup; [|apply fmap_sublist, sublist_filter].
  rewrite enumerate_fst. apply NoDup_seq.
Qed.

Lemma selected_indices_bound texts : Forall (λ i, i < length texts) (selected texts).*1.
Proof.
  apply Forall_forall. intros i ((j & t) & -> & Hin)%list_elem_of_fmap. cbn.
  apply selected_elem in Hin as [Hj _]. by eapply lookup_lt_Some.
Qed.

Lemma selected_nil texts :
  selected texts = [] → Forall (λ t, truthy (strip t) = false) texts.
Proof.
  intros Hnil. apply Forall_lookup. intros i t Hi.
  destruct (truthy (strip t)) eqn:E; [|done].
  assert ((i, t) ∈ selected texts) as Hin by by apply selected_elem.
  rewrite Hnil in Hin. by apply elem_of_nil in Hin.
Qed.

Lemma item_of_text_truthy texts :
  Forall (λ it, truthy (text it) = true) (item_of <$> selected texts).
Proof.
  apply Forall_fmap, Forall_lookup. intros k p Hk. cbn.
  by apply selected_lookup in Hk as [_ ?].
Qed.

Lemma text_id_inj (i j : nat) : "text_" +:+ pretty i = "text_" +:+ pretty j → i = j.
Proof. intros H%String.app_inj. by apply pretty_nat_inj in H. Qed.

Lemma item_ids_NoDup texts : NoDup (id <$> (item_of <$> selected texts)).
Proof.
  rewrite <- list_fmap_compose.
  rewrite (list_fmap_ext _ ((λ i, "text_" +:+ pretty i) ∘ fst) (selected texts))
    by by intros ? [] ?.
  rewrite list_fmap_compose. apply NoDup_fmap_2; [|apply selected_indices_NoDup].
  intros i j. apply text_id_inj.
Qed.

End Selection.

Section ProcessChunk.
Import PyStr Translator Properties.
Implicit Types (chunk : list item) (ainvoke : list item → result pyval).

Lemma Forall2_concat {A B} (P : A → B → Prop) (ls : list (list A)) (ks : list (list B)) :
  Forall2 (Forall2 P) ls ks → Forall2 P (concat ls) (concat ks).
Proof. induction 1; cbn; [constructor|by apply Forall2_app]. Qed.

Lemma Forall2_eq_fmap {A B} (f : A → B) (l : list A) (k : list B) :
  Forall2 (λ x y, y = f x) l k → k = f <$> l.
Proof. induction 1; cbn; congruence. Qed.

(** Whatever the backend does, [process_chunk] returns: either the texts
    of the chunk, or one resolved entry per item, looked up in the
    dictionary built from the entries of the response. *)
Lemma process_chunk_cases ainvoke chunk :
  ∃ out, process_chunk ainvoke chunk = Ok out
         ∧ (out = text <$> chunk
            ∨ ∃ v translations entries id_to_trans,
                ainvoke chunk = Ok v
                ∧ py_getitem v "translations" = Ok translations
                ∧ py_iter translations = Ok entries
                ∧ build_id_to_trans entries = Ok id_to_trans
                ∧ Forall2 (λ it o, resolve_item id_to_trans it = Ok o) chunk out).
Proof.
  unfold process_chunk. apply try_except_fallback; [by left|].
  intros out. destruct (ainvoke chunk) as [v|]; cbn; [|done].
  destruct (negb _); [intros [= <-]; by left|].
  destruct (py_getitem v "translations") as [translations|] eqn:Htr; cbn; [|done].
  destruct (py_iter translations) as [entries|] eqn:Hentries; cbn; [|done].
  destruct (build_id_to_trans entries) as [d|] eqn:Hd; cbn; [|done].
  intros Hout%mapM_Ok_1. right. by exists v, translations, entries, d.
Qed.

Lemma resolve_item_nonempty id_to_trans it o :
  truthy (text it) = true → resolve_item id_to_trans it = Ok o → o ≠ EmptyString.
Proof.
  unfold resolve_item. intros Hit.
  destruct (default _ _) as [| | | |s| |]; try done. cbn.
  destruct (truthy (strip s)) eqn:Hs; intros [= <-].
  - by apply truthy_strip_nonempty.
  - by apply truthy_nonempty.
Qed.

(** No entry of a chunk comes back empty. *)
Lemma process_chunk_nonempty ainvoke chunk :
  Forall (λ it, truthy (text it) = true) chunk →
  ∃ out, process_chunk ainvoke chunk = Ok out
         ∧ Forall2 (λ it o, o ≠ EmptyString) chunk out.
Proof.
  intros Hchunk. destruct (process_chunk_cases ainvoke chunk) as (out & Hout & Hcases).
  exists out. split; [done|]. destruct Hcases as [->|(_ & _ & _ & d & _ & _ & _ & _ & Hd)].
  - apply Forall2_fmap_r, Forall_Forall2_diag.
    eapply Forall_impl; [done|]. intros it. cbn. apply truthy_nonempty.
  - apply Forall2_same_length_lookup. split; [by eapply Forall2_length|].
    intros i it o Hi Ho.
    destruct (Forall2_lookup_l _ _ _ _ _ Hd Hi) as (o' & Ho' & Hres).
    assert (o' = o) as -> by congruence.
    eapply resolve_item_nonempty; [|done].
    by eapply (proj1 (Forall_lookup _ _) Hchunk).
Qed.

(** An unusable response makes the whole chunk fall back to its texts. *)
Lemma process_chunk_unusable ainvoke chunk :
  unusable (ainvoke chunk) → process_chunk ainvoke chunk = Ok (text <$> chunk).
Proof.
  unfold unusable, process_chunk. destruct (ainvoke chunk) as [v|]; cbn; [|done].
  by intros ->.
Qed.

Lemma build_id_to_trans_entries entries (pairs : list (string * string)) :
  Forall2 is_entry entries pairs →
  build_id_to_trans entries = Ok ((λ p, (PStr p.1, PStr p.2)) <$> pairs).
Proof.
  induction 1 as [|v p entries pairs [Hid Htr] _ IH]; cbn; [done|].
  rewrite Hid; cbn. rewrite Htr; cbn. by rewrite IH.
Qed.

Lemma dict_get_absent (pairs : list (string * string)) key :
  key ∉ pairs.*1 → dict_get ((λ p, (PStr p.1, PStr p.2)) <$> pairs) key = None.
Proof.
  induction pairs as [|[i t] pairs IH]; cbn; [done|].
  rewrite not_elem_of_cons. intros [Hne Hnot]. rewrite (IH Hnot).
  assert (String.eqb i key = false) as -> by (apply String.eqb_neq; congruence).
  done.
Qed.

Lemma dict_get_present (pairs : list (string * string)) key t :
  NoDup pairs.*1 → (key, t) ∈ pairs →
  dict_get ((λ p, (PStr p.1, PStr p.2)) <$> pairs) key = Some (PStr t).
Proof.
  induction pairs as [|[i0 t0] pairs IH]; cbn.
  - intros _ Hin. by apply elem_of_nil in Hin.
  - rewrite NoDup_cons, elem_of_cons. intros [Hnot Hnd] [[= -> ->]|Hin].
    + rewrite (dict_get_absent _ _ Hnot). by rewrite String.eqb_refl.
    + by rewrite (IH Hnd Hin).
Qed.

Lemma build_id_to_trans_omits entries id_to_trans i :
  build_id_to_trans entries = Ok id_to_trans →
  Forall (λ e, py_getitem e "id" ≠ Ok (PStr i)) entries →
  dict_get id_to_trans i = None.
Proof.
  revert id_to_trans. induction entries as [|e entries IH]; intros d; cbn.
  - by intros [= <-].
  - destruct (py_getitem e "id") as [k|] eqn:Hk; cbn; [|done].
    destruct (py_getitem e "translated") as [v|]; cbn; [|done].
    destruct (hashable k); [|done].
    destruct (build_id_to_trans entries) as [d'|]; cbn; [|done].
    intros [= <-] [Hne Hrest]%Forall_cons. cbn. rewrite (IH d' eq_refl Hrest).
    destruct k as [| | | |s| |]; try done.
    destruct (String.eqb_spec s i) as [->|]; [by destruct Hne|done].
Qed.

(** A response keyed by id resolves every item of the chunk to its own
    translation, in whatever order the entries come. *)
Lemma process_chunk_keyed translate ainvoke chunk :
  NoDup (id <$> chunk) →
  keyed_response translate chunk (ainvoke chunk) →
  process_chunk ainvoke chunk = Ok ((λ it, resolve (translate it) (text it)) <$> chunk).
Proof.
  intros Hnd (d & entries & pairs & Hresp & Hd & Hentries & Hperm).
  unfold process_chunk. rewrite Hresp. cbn. rewrite Hd. cbn.
  rewrite (build_id_to_trans_entries _ _ Hentries). cbn.
  assert (NoDup pairs.*1) as Hpairs.
  { rewrite Hperm, <- list_fmap_compose. exact Hnd. }
  erewrite mapM_Ok_2; [done|].
  apply Forall2_fmap_r, Forall_Forall2_diag, Forall_forall. intros it Hit. cbn.
  unfold resolve_item.
  rewrite (dict_get_present pairs (id it) (translate it) Hpairs); [done|].
  rewrite Hperm. apply list_elem_of_fmap. eauto.
Qed.

End ProcessChunk.

Section Reassembly.
Import PyStr Translator Properties.

(** Tasks that cannot raise all deliver their result, each the one of its
    own run, in the order of the tasks. *)
Lemma gather_total {A} order (tasks : list (nat → result A)) :
  Forall (λ task, ∀ rank, ∃ v, task rank = Ok v) tasks →
  ∃ results, gather order tasks = Ok results
             ∧ Forall2 (λ task v, ∃ rank, task rank = Ok v) tasks results.
Proof.
  unfold gather. generalize (completion_rank order) as f. intros f Htasks. revert f.
  induction Htasks as [|task tasks Htask _ IH]; intros f; cbn.
  - exists []. split; [done|constructor].
  - destruct (Htask (f 0)) as (v & Hv). rewrite Hv. cbn.
    destruct (IH (f ∘ S)) as (results & Hres & HR). exists (v :: results).
    split; [|constructor; eauto]. unfold compose in *. by rewrite Hres.
Qed.

Lemma foldl_put_length acc (ps : list (nat * string)) :
  length (foldl put acc ps) = length acc.
Proof.
  revert acc. induction ps as [|p ps IH]; intros acc; cbn; [done|].
  rewrite IH. apply length_insert.
Qed.

Lemma foldl_put_lookup_notin acc idx outs j :
  j ∉ idx → foldl put acc (zip idx outs) !! j = acc !! j.
Proof.
  revert acc outs. induction idx as [|i idx IH]; intros acc outs; [done|].
  rewrite not_elem_of_cons. intros [Hne Hnot]. destruct outs as [|o outs]; [done|].
  cbn. rewrite IH by done. unfold put. cbn. by apply list_lookup_insert_ne.
Qed.

Lemma foldl_put_lookup_in acc idx outs k j o :
  NoDup idx → j < length acc → idx !! k = Some j → outs !! k = Some o →
  foldl put acc (zip idx outs) !! j = Some o.
Proof.
  revert acc outs k. induction idx as [|i idx IH]; intros acc outs k Hnd Hj Hk Ho; [done|].
  apply NoDup_cons in Hnd as [Hnot Hnd]. destruct outs as [|o0 outs]; [done|].
  destruct k as [|k]; cbn in *.
  - injection Hk as ->. injection Ho as ->.
    rewrite foldl_put_lookup_notin by done. by apply list_lookup_insert_eq.
  - eapply IH; [done| |done..]. unfold put. by rewrite length_insert.
Qed.

(** The last loop of [translate_texts_openai_async] performs the writes
    one after the other and never leaves the bounds. *)
Lemma final_loop texts (all_translations : list string) idx :
  Forall (λ i, i < length texts) idx → length all_translations = length idx →
  for_each
    (λ final_results '(i, original_index),
       if decide (i < length all_translations)
       then v ← list_getitem all_translations i;
            list_setitem final_results original_index v
       else v ← list_getitem texts original_index;
            list_setitem final_results original_index v)
    (replicate (length texts) "") (enumerate idx)
  = Ok (foldl put (replicate (length texts) "") (zip idx all_translations)).
Proof.
  intros Hidx Hlen. unfold enumerate.
  assert (H : ∀ idx' (pre rest acc : list string),
    all_translations = pre ++ rest → length rest = length idx' →
    Forall (λ i, i < length acc) idx' →
    for_each
      (λ final_results '(i, original_index),
         if decide (i < length all_translations)
         then v ← list_getitem all_translations i;
              list_setitem final_results original_index v
         else v ← list_getitem texts original_index;
              list_setitem final_results original_index v)
      acc (imap (λ k i, (length pre + k, i)) idx')
    = Ok (foldl put acc (zip idx' rest))).
  { induction idx' as [|i idx' IH]; intros pre rest acc Hall Hrest Hbound; [done|].
    destruct rest as [|o rest]; [done|]. apply Forall_cons in Hbound as [Hi Hbound].
    rewrite imap_cons. cbn [for_each zip zip_with foldl].
    rewrite decide_True by (rewrite Hall, length_app; cbn; lia).
    unfold list_getitem. rewrite Hall, lookup_app_r, Nat.add_0_r, Nat.sub_diag by lia.
    cbn. unfold list_setitem. rewrite decide_True by done. cbn.
    rewrite <- Hall.
    rewrite (imap_ext _ (λ k i, (length (pre ++ [o]) + k, i))).
    2:{ intros k j _. cbn. rewrite length_app. cbn. f_equal. lia. }
    apply IH.
    - by rewrite <- app_assoc.
    - cbn in Hrest. lia.
    - eapply Forall_impl; [done|]. intros j. cbn. by rewrite length_insert. }
  apply (H idx [] all_translations); [done..|]. by rewrite length_replicate.
Qed.

(** Every non-empty text receives the result of its own item, every other
    index the empty string. *)
Lemma reassemble (Q : item → string → Prop) texts all_translations :
  Forall2 Q (item_of <$> selected texts) all_translations →
  Forall2 (λ p o, if truthy (strip p.2) then Q (item_of p) o else o = EmptyString)
          (enumerate texts)
          (foldl put (replicate (length texts) "") (zip (selected texts).*1 all_translations)).
Proof.
  intros HQ. apply Forall2_same_length_lookup. split.
  { rewrite foldl_put_length, length_replicate. unfold enumerate. by rewrite length_imap. }
  intros i [i' t] o Hp Ho. apply enumerate_lookup_Some in Hp as [-> Ht]. cbn.
  pose proof (lookup_lt_Some _ _ _ Ht) as Hlt.
  destruct (truthy (strip t)) eqn:E.
  - assert ((i, t) ∈ selected texts) as (k & Hk)%list_elem_of_lookup_1
      by by apply selected_elem.
    destruct (Forall2_lookup_l _ _ _ k (item_of (i, t)) HQ) as (o' & Ho' & HQo).
    { by rewrite list_lookup_fmap, Hk. }
    erewrite foldl_put_lookup_in in Ho;
      [| apply selected_indices_NoDup | by rewrite length_replicate
       | by rewrite list_lookup_fmap, Hk | done ].
    injection Ho as Heq. by subst.
  - rewrite foldl_put_lookup_notin in Ho.
    + by apply lookup_replicate in Ho as [-> _].
    + intros ([i' t'] & Hi' & Hin)%list_elem_of_fmap. cbn in Hi'. subst i'.
      apply selected_elem in Hin as [Ht' E']. congruence.
Qed.

(** The pipeline: if every chunk of the selected items comes back related
    to its items by [Q], the call returns, and its result relates every
    non-empty text to the outcome of its item and is empty elsewhere. *)
Lemma translate_texts_pipeline (Q : item → string → Prop) chain order texts target_lang :
  (∀ rank chunk, sublist chunk (item_of <$> selected texts) →
     ∃ out, process_chunk (chain rank (language_name target_lang)) chunk = Ok out
            ∧ Forall2 Q chunk out) →
  ∃ final_results,
    translate_texts_openai_async chain order texts target_lang = Ok final_results
    ∧ Forall2 (λ p o, if truthy (strip p.2) then Q (item_of p) o else o = EmptyString)
              (enumerate texts) final_results.
Proof.
  intros Hchunks. unfold translate_texts_openai_async.
  case_bool_decide as Htexts.
  { subst texts. exists []. split; [done|constructor]. }
  rewrite collect_non_empty_selected.
  case_bool_decide as Hitems.
  { apply fmap_nil_inv in Hitems. exists (replicate (length texts) "").
    split; [done|].
    apply Forall2_replicate_r; [unfold enumerate; by rewrite length_imap|].
    pose proof (selected_nil _ Hitems) as Hblank.
    rewrite <- (enumerate_snd texts) in Hblank. apply Forall_fmap in Hblank.
    eapply Forall_impl; [done|]. intros [i t]. cbn. by intros ->. }
  set (items := item_of <$> selected texts) in *.
  set (tasks := (λ i rank, process_chunk (chain rank (language_name target_lang))
                                          (slice items i (i + 10)))
                  <$> range_step (length items) 10).
  destruct (gather_total order tasks) as (results & -> & Hres).
  { apply Forall_fmap, Forall_forall. intros i _ rank. cbn.
    destruct (Hchunks rank (slice items i (i + 10))) as (out & Hout & HQ);
      [apply slice_sublist|].
    by exists out. }
  cbn. rewrite foldl_app_concat. cbn.
  assert (Forall2 Q items (concat results)) as HQ.
  { rewrite <- (concat_range_slices items 10) at 1 by lia.
    apply Forall2_concat, Forall2_fmap_l.
    unfold tasks in Hres. apply Forall2_fmap_l in Hres.
    eapply Forall2_impl; [done|]. cbn. intros i v (rank & Hv).
    destruct (Hchunks rank (slice items i (i + 10))) as (out & Hout & HQ);
      [apply slice_sublist|].
    congruence. }
  rewrite final_loop.
  - eexists. split; [done|]. by apply reassemble.
  - apply selected_indices_bound.
  - apply Forall2_length in HQ. unfold items in HQ. by rewrite !length_fmap in *.
Qed.

End Reassembly.

Section TranslationLaws.
Import PyStr Translator Properties Scenario.

Lemma Forall_sublist {A} (P : A → Prop) (l k : list A) :
  sublist l k → Forall P k → Forall P l.
Proof.
  induction 1 as [|x l k _ IH|x l k _ IH]; [done|..].
  - intros [? ?]%Forall_cons. constructor; auto.
  - intros [_ ?]%Forall_cons. auto.
Qed.

(** When every response is unusable, every text comes back stripped. *)
Lemma unusable_backend_returns_stripped chain order texts target_lang :
  (∀ rank lang items, unusable (chain rank lang items)) →
  translate_texts_openai_async chain order texts target_lang = Ok (strip <$> texts).
Proof.
  intros Hbad.
  destruct (translate_texts_pipeline (λ it o, o = text it) chain order texts target_lang)
    as (final & -> & Hfinal).
  { intros rank chunk _. exists (text <$> chunk). split.
    - by apply process_chunk_unusable.
    - by apply Forall2_fmap_r, Forall_Forall2_diag, Forall_true. }
  f_equal. transitivity ((strip ∘ snd) <$> enumerate texts);
    [|by rewrite list_fmap_compose, enumerate_snd].
  apply Forall2_eq_fmap. eapply Forall2_impl; [done|]. intros [i t] o. cbn.
  destruct (truthy (strip t)) eqn:E; [done|]. intros ->.
  by destruct (strip t).
Qed.

(** The fallback law that the code obeys: a unit whose batch comes back
    unusable, or without an entry for its id, is returned stripped of its
    surrounding whitespace, and the call does not raise. *)
Lemma fallback_law_stripped chain order texts target_lang i t :
  texts !! i = Some t →
  (∀ rank chunk, item_of (i, t) ∈ chunk →
     unusable (chain rank (language_name target_lang) chunk)
     ∨ omits_id (chain rank (language_name target_lang) chunk) ("text_" +:+ pretty i)) →
  ∃ out, translate_texts_openai_async chain order texts target_lang = Ok out
         ∧ out !! i = Some (strip t).
Proof.
  intros Hi Hbad.
  destruct (translate_texts_pipeline (λ it o, it = item_of (i, t) → o = text it)
              chain order texts target_lang) as (final & Hfinal & Hrel).
  { intros rank chunk _.
    destruct (process_chunk_cases (chain rank (language_name target_lang)) chunk)
      as (out & Hout & [->|(v & translations & entries & d & Hv & Htr & Hen & Hd & Hres)]).
    - eexists. split; [done|]. by apply Forall2_fmap_r, Forall_Forall2_diag, Forall_true.
    - exists out. split; [done|]. apply Forall2_same_length_lookup.
      split; [by eapply Forall2_length|]. intros k it o Hk Ho ->.
      destruct (Forall2_lookup_l _ _ _ _ _ Hres Hk) as (o' & Ho' & Hit).
      assert (o' = o) as -> by congruence.
      destruct (Hbad rank chunk) as [Hun|Homit]; [by eapply list_elem_of_lookup_2|..].
      + rewrite Hv in Hun. cbn in Hun. destruct v as [| | | | | |d']; try done.
        cbn in Hun, Htr. by destruct (d' !! "translations").
      + pose proof (build_id_to_trans_omits _ _ _ Hd (Homit _ _ _ Hv Htr Hen)) as Hnone.
        unfold resolve_item in Hit. cbn in Hit. rewrite Hnone in Hit. cbn in Hit.
        destruct (truthy _); by injection Hit. }
  exists final. split; [done|].
  destruct (Forall2_lookup_l _ _ _ i (i, t) Hrel) as (o & -> & Ho);
    [by apply enumerate_lookup|].
  cbn in Ho. f_equal. destruct (truthy (strip t)) eqn:E; [by apply Ho|].
  subst o. by destruct (strip t).
Qed.

(** C2 (evaluation): with a backend whose output is not valid JSON, one
    that answers with the wrong shape, and one that leaves out the id
    [text_0], the call returns normally, and the unit [" a "] comes back as
    ["a"]: the stripped text, not the input text. *)
Theorem fallback_returns_stripped_text :
  translate_texts_openai_async invalid_json_chain [] [" a "] "en" = Ok ["a"]
  ∧ translate_texts_openai_async wrong_shape_chain [] [" a "] "en" = Ok ["a"]
  ∧ translate_texts_openai_async omitting_chain [] [" a "; "b"] "en" = Ok ["a"; "B"].
Proof. split_and!; by vm_compute. Qed.

(** C3: the result has the length of the input, and an entry of the
    result is empty exactly when the input at that index is empty or
    whitespace; the call never raises, whatever the backend does. *)
Theorem translation_length_and_emptiness
    (chain : Chain) (order : list nat) (texts : list string) (target_lang : string) :
  ∃ out,
    translate_texts_openai_async chain order texts target_lang = Ok out
    ∧ length out = length texts
    ∧ Forall2 (λ t o, o = EmptyString ↔ truthy (strip t) = false) texts out.
Proof.
  destruct (translate_texts_pipeline (λ it o, o ≠ EmptyString)
              chain order texts target_lang) as (final & Hfinal & Hrel).
  { intros rank chunk Hsub. apply process_chunk_nonempty.
    eapply Forall_sublist; [done|]. apply item_of_text_truthy. }
  assert (Forall2 (λ t o, o = EmptyString ↔ truthy (strip t) = false) texts final) as H.
  { rewrite <- (enumerate_snd texts). apply Forall2_fmap_l.
    eapply Forall2_impl; [done|]. intros [i t] o. cbn.
    destruct (truthy (strip t)); naive_solver. }
  exists final. split_and!; [done| |done]. symmetry. by eapply Forall2_length.
Qed.

(** C4: with a backend that returns the translations keyed by id, in any
    order within a batch and with the batches completing in any order, the
    translation returned under the id [text_i] lands at index [i], and
    the other indices are empty. *)
Theorem translations_placed_by_original_index
    (translate : item → string) (chain : Chain) (order : list nat)
    (texts : list string) (target_lang : string) :
  keyed_by_id translate chain →
  translate_texts_openai_async chain order texts target_lang =
    Ok (imap (λ i t,
                if truthy (strip t)
                then resolve (translate {| id := "text_" +:+ pretty i; text := strip t |})
                             (strip t)
                else "") texts).
Proof.
  intros Hkeyed.
  destruct (translate_texts_pipeline (λ it o, o = resolve (translate it) (text it))
              chain order texts target_lang) as (final & -> & Hrel).
  { intros rank chunk Hsub.
    exists ((λ it, resolve (translate it) (text it)) <$> chunk). split.
    - apply process_chunk_keyed; [|apply Hkeyed].
      eapply sublist_NoDup; [apply item_ids_NoDup|]. by apply fmap_sublist.
    - by apply Forall2_fmap_r, Forall_Forall2_diag, Forall_true. }
  f_equal.
  transitivity ((λ p, if truthy (strip p.2)
                      then resolve (translate (item_of p)) (strip p.2) else "")
                  <$> enumerate texts).
  - apply Forall2_eq_fmap. eapply Forall2_impl; [done|]. intros [i t] o. cbn.
    by destruct (truthy (strip t)).
  - unfold enumerate. by rewrite fmap_imap.
Qed.

Lemma upper_chain_keyed : keyed_by_id (λ it, upper (text it)) upper_chain.
Proof.
  intros rank lang items. unfold upper_chain, translations_response.
  eexists _, _, (reverse ((λ it, (id it, upper (text it))) <$> items)).
  split_and!; [done|apply lookup_singleton_eq| |apply reverse_Permutation].
  rewrite <- !fmap_reverse. apply Forall2_fmap, Forall_Forall2_diag, Forall_true.
  intros it. by split.
Qed.

Lemma translations_placed_by_original_index_witness :
  keyed_by_id (λ it, upper (text it)) upper_chain
  ∧ translate_texts_openai_async upper_chain [1; 0] twelve_texts "ja" =
      Ok (imap (λ i t,
                  if truthy (strip t)
                  then resolve (upper (text {| id := "text_" +:+ pretty i; text := strip t |}))
                               (strip t)
                  else "") twelve_texts).
Proof.
  split; [exact upper_chain_keyed|].
  exact (translations_placed_by_original_index
           (λ it, upper (text it)) upper_chain [1; 0] twelve_texts "ja"
           upper_chain_keyed).
Defined.

(** With two batches completing in either order, the twelve translations
    come back at the indices of their sources. *)
Example two_batches_in_either_order :
  translate_texts_openai_async upper_chain [1; 0] twelve_texts "ja" =
    Ok ["ONE"; "TWO"; ""; "THREE"; "FOUR"; "FIVE"; ""; "SIX"; "SEVEN"; "EIGHT";
        "NINE"; "TEN"; "ELEVEN"; "TWELVE"]
  ∧ translate_texts_openai_async upper_chain [0; 1] twelve_texts "ja" =
      translate_texts_openai_async upper_chain [1; 0] twelve_texts "ja".
Proof. split; by vm_compute. Qed.

End TranslationLaws.

(** * Collection and analysis *)

Section Documents.
Import PyStr Translator Properties Scenario.

(** A property of the accumulators that every visited slot preserves is
    preserved by the traversal of a shape. *)
Lemma collect_texts_from_shape_preserves (P : collected → Prop) texts :
  (∀ acc obj, P acc → P (collect_slot texts acc obj)) →
  ∀ sh acc, P acc → P (collect_texts_from_shape texts sh acc).
Proof.
  intros Hslot.
  assert (Hrow : ∀ row acc, P acc → P (foldl (collect_slot texts) acc row)).
  { induction row as [|obj row IHrow]; intros acc Hacc; cbn; auto. }
  assert (Hrows : ∀ rows acc, P acc →
            P (foldl (λ acc row, foldl (collect_slot texts) acc row) acc rows)).
  { induction rows as [|row rows IHrows]; intros acc Hacc; cbn; auto. }
  fix IH 1. intros [shapes|[rows|e]|paragraphs|] acc Hacc; cbn; auto.
  revert acc Hacc. induction shapes as [|child shapes IHshapes]; intros acc Hacc; cbn; auto.
Qed.

Lemma collect_preserves (P : collected → Prop) prs :
  (∀ acc obj, P acc → P (collect_slot (slot_text prs) acc obj)) →
  P ([], []) → P (collect prs).
Proof.
  intros Hslot. unfold collect. generalize (([], []) : collected) as acc.
  induction (slides prs) as [|slide rest IHslides]; intros acc Hacc; cbn; [done|].
  apply IHslides. revert acc Hacc.
  induction slide as [|sh slide IHslide]; intros acc Hacc; cbn; [done|].
  apply IHslide. by apply collect_texts_from_shape_preserves.
Qed.

(** The texts and the slots are collected in pairs. *)
Lemma collect_lengths prs : length (collect prs).1 = length (collect prs).2.
Proof.
  apply (collect_preserves (λ acc, length acc.1 = length acc.2)); [|done].
  intros [ts objs] obj. unfold collect_slot. cbn. intros Hlen.
  destruct (truthy _); cbn; [|done]. rewrite !length_app. cbn. lia.
Qed.


Lemma analyze_pptx_loaded fs file_path prs :
  Presentation fs file_path = Ok prs →
  analyze_pptx fs file_path =
    Ok {| pages := length (slides prs); text_count := length (collect prs).1;
          success := true; error := None |}.
Proof.
  intros Hload. unfold analyze_pptx, collect. rewrite Hload. cbn.
  by destruct (foldl _ _ _).
Qed.

Lemma translate_pptx_async_loaded chain order fs input_path output_path target_lang prs :
  Presentation fs input_path = Ok prs →
  translate_pptx_async chain order fs input_path output_path target_lang =
    translate_collected chain order fs prs (collect prs) output_path target_lang.
Proof.
  intros Hload. unfold translate_pptx_async, translate_collected, collect.
  rewrite Hload. by destruct (foldl _ _ _).
Qed.

(** C5: for a document that loads, the unit count reported by the
    analysis is the number of (text, slot) pairs of the collection pass
    whose texts [translate_pptx_async] goes on to translate. *)
Theorem analysis_agrees_with_collection
    (chain : Chain) (order : list nat) (fs : filesystem)
    (file_path output_path target_lang : string) (prs : presentation) :
  Presentation fs file_path = Ok prs →
  (∃ a, analyze_pptx fs file_path = Ok a
        ∧ text_count a = length (collect prs).1
        ∧ text_count a = length (collect prs).2)
  ∧ translate_pptx_async chain order fs file_path output_path target_lang =
      translate_collected chain order fs prs (collect prs) output_path target_lang.
Proof.
  intros Hload. split.
  - eexists. split_and!; [by apply analyze_pptx_loaded|done|apply collect_lengths].
  - by apply translate_pptx_async_loaded.
Qed.

Lemma analysis_agrees_with_collection_witness :
  Presentation {[ "deck.pptx" := PptxFile deck ]} "deck.pptx" = Ok deck
  ∧ (∃ a, analyze_pptx {[ "deck.pptx" := PptxFile deck ]} "deck.pptx" = Ok a
          ∧ text_count a = length (collect deck).1
          ∧ text_count a = length (collect deck).2)
  ∧ translate_pptx_async upper_chain [] {[ "deck.pptx" := PptxFile deck ]}
      "deck.pptx" "out.pptx" "en" =
    translate_collected upper_chain [] {[ "deck.pptx" := PptxFile deck ]} deck
      (collect deck) "out.pptx" "en".
Proof.
  split; [reflexivity|].
  exact (analysis_agrees_with_collection upper_chain []
           {[ "deck.pptx" := PptxFile deck ]} "deck.pptx" "out.pptx" "en" deck eq_refl).
Defined.

(** C9: the analysis never raises: a document that loads is counted, and
    a failure to load gives [success = False] with zero pages, zero texts
    and the message of the exception. *)
Theorem analyze_pptx_total (fs : filesystem) (file_path : string) :
  analyze_pptx fs file_path =
    Ok match Presentation fs file_path with
       | Ok prs =>
           {| pages := length (slides prs); text_count := length (collect prs).1;
              success := true; error := None |}
       | Raise e =>
           {| pages := 0; text_count := 0; success := false;
              error := Some (str_of_exn e) |}
       end.
Proof.
  destruct (Presentation fs file_path) as [prs|e] eqn:Hload.
  - by apply analyze_pptx_loaded.
  - unfold analyze_pptx. by rewrite Hload.
Qed.

End Documents.

(** * The scheduler *)

Section Scheduler.
Import PyStr Translator Main Properties Scenario.
Implicit Types (s : state) (MAX : Z).

(** [translate_pptx_async] returns a pair. *)
Lemma translate_pptx_async_returns_pair chain order fs input_path output_path target_lang :
  match (translate_pptx_async chain order fs input_path output_path target_lang).2 with
  | Ok tuple => length tuple = 2
  | Raise _ => True
  end.
Proof.
  unfold translate_pptx_async. destruct (Presentation fs input_path) as [prs|]; [|done].
  destruct (foldl _ _ _) as [texts objs]. case_bool_decide; [done|].
  destruct (translate_texts_openai_async _ _ _ _); [|done].
  by destruct (apply_translations _ _ _).
Qed.

(** The unpacking of the returned pair into three names always raises. *)
Lemma unpack3_of_translation_raises chain order fs input_path output_path target_lang :
  ∃ e, (translate_pptx_async chain order fs input_path output_path target_lang).2
         ≫= unpack3 = Raise e.
Proof.
  pose proof (translate_pptx_async_returns_pair
                chain order fs input_path output_path target_lang) as H.
  destruct (translate_pptx_async _ _ _ _ _ _).2 as [tuple|e]; cbn; [|by eexists].
  destruct tuple as [|a [|b [|c tuple]]]; try done. cbn. by eexists.
Qed.

(** Finishing a job leaves it completed or failed, never processing, frees
    the loop and decrements the counter. *)
Lemma finish_job_effect chain order now translation_request s :
  ∃ f, (∀ job, TranslationJob.status (f job) ≠ processing)
       ∧ active_jobs (finish_job chain order now translation_request s) =
           alter f (TranslationRequest.job_id translation_request) (active_jobs s)
       ∧ awaiting (finish_job chain order now translation_request s) = None
       ∧ processing_count (finish_job chain order now translation_request s) =
           (processing_count s - 1)%Z.
Proof.
  unfold finish_job.
  destruct (translate_pptx_async _ _ _ _ _ _) as [fs returned].
  destruct (returned ≫= unpack3) as [[[pages text_count] token_metrics]|e].
  - destruct (_ ≫= _) as [record|e].
    + destruct (_ ≫= format_4f) as [[]|e]; cbn.
      * exists (mark_completed now). by split_and!.
      * eexists (mark_failed _ now ∘ mark_completed now).
        split_and!; [done|by rewrite alter_alter_eq|done..].
    + cbn. eexists (mark_failed _ now ∘ mark_completed now).
      split_and!; [done|by rewrite alter_alter_eq|done..].
  - cbn. eexists (mark_failed _ now). by split_and!.
Qed.

(** Every job that the loop finishes is marked failed: the unpacking of
    the returned pair raises inside the [try] block. *)
Lemma finish_job_marks_failed chain order now translation_request s job :
  active_jobs s !! TranslationRequest.job_id translation_request = Some job →
  ∃ msg, active_jobs (finish_job chain order now translation_request s)
           !! TranslationRequest.job_id translation_request
         = Some (mark_failed msg now job).
Proof.
  intros Hjob. unfold finish_job.
  pose proof (unpack3_of_translation_raises chain order (files s)
                (TranslationRequest.file_path translation_request)
                (TranslationRequest.output_path translation_request)
                (TranslationRequest.target_lang translation_request)) as [e He].
  destruct (translate_pptx_async _ _ _ _ _ _) as [fs returned]. cbn in He.
  rewrite He. cbn. eexists. by rewrite lookup_alter_eq, Hjob.
Qed.

Lemma scheduler_inv_initial MAX fs : scheduler_inv MAX (initial_state fs).
Proof. split; [done|]. intros job_id job. cbn. by rewrite lookup_empty. Qed.

(** An upload touches neither the counter nor the awaited request; it
    registers at most one job, in the queued state. *)
Lemma upload_file_effect u s :
  awaiting (upload_file u s).1 = awaiting s
  ∧ processing_count (upload_file u s).1 = processing_count s
  ∧ (active_jobs (upload_file u s).1 = active_jobs s
     ∨ ∃ job, TranslationJob.status job = queued
              ∧ active_jobs (upload_file u s).1 = <[up_job_id u := job]> (active_jobs s)).
Proof.
  unfold upload_file. repeat case_match; cbn; split_and!; try done; try by left.
  right. eexists. split; [|reflexivity]. reflexivity.
Qed.

Lemma scheduler_inv_upload MAX u s :
  scheduler_inv MAX s → scheduler_inv MAX (upload_file u s).1.
Proof.
  destruct (upload_file_effect u s) as (Hawait & Hcount & Hjobs).
  unfold scheduler_inv. rewrite Hawait, Hcount.
  destruct Hjobs as [->|(job & Hqueued & ->)]; [done|].
  destruct (awaiting s).
  - intros (? & ? & Hinv). split_and!; [done..|].
    intros job_id job' [[<- <-]|[_ Hjob]]%lookup_insert_Some; [congruence|].
    by apply Hinv.
  - intros (? & Hinv). split; [done|].
    intros job_id job' [[<- <-]|[_ Hjob]]%lookup_insert_Some; [congruence|].
    by eapply Hinv.
Qed.

Lemma scheduler_inv_download MAX job_id s :
  scheduler_inv MAX s → scheduler_inv MAX (download_result job_id s).1.
Proof.
  unfold download_result, scheduler_inv.
  destruct (active_jobs s !! job_id); [|done]. case_bool_decide; [done|]. cbn.
  destruct (awaiting s).
  - intros (? & ? & Hjobs). split_and!; [done..|].
    intros j job [_ Hj]%lookup_delete_Some. by eapply Hjobs.
  - intros (? & Hjobs). split; [done|].
    intros j job [_ Hj]%lookup_delete_Some. by eapply Hjobs.
Qed.

Lemma scheduler_inv_loop MAX chain order now s :
  scheduler_inv MAX s →
  scheduler_inv MAX (process_translation_queue MAX chain order now s).
Proof.
  unfold process_translation_queue.
  destruct (awaiting s) as [translation_request|] eqn:Hawait.
  - (* the awaited translation ends *)
    unfold scheduler_inv at 1. rewrite Hawait. intros (Hcount & HMAX & Hjobs).
    destruct (finish_job_effect chain order now translation_request s)
      as (f & Hf & Hactive & Hnone & Hdec).
    unfold scheduler_inv. rewrite Hnone, Hdec, Hactive. split; [lia|].
    intros job_id job. rewrite lookup_alter_Some.
    intros [(_ & job' & _ & ->)|[Hne Hjob]]; [apply Hf|].
    intros Hproc. by apply Hne, eq_sym, (Hjobs job_id job).
  - (* the loop takes the head of the queue *)
    destruct (translation_queue s) as [|translation_request rest]; [done|].
    unfold scheduler_inv at 1. rewrite Hawait. intros (Hcount & Hjobs).
    destruct (Z.leb_spec MAX (processing_count s)); unfold scheduler_inv; cbn.
    + done.
    + split_and!; [lia..|]. intros job_id job.
      rewrite lookup_alter_Some. intros [(<- & _)|[_ Hjob]]; [done|].
      intros Hproc. by destruct (Hjobs job_id job).
Qed.

Lemma scheduler_inv_step MAX s ev :
  scheduler_inv MAX s → scheduler_inv MAX (step MAX s ev).
Proof.
  destruct ev; cbn.
  - apply scheduler_inv_upload.
  - apply scheduler_inv_loop.
  - apply scheduler_inv_download.
Qed.

Lemma scheduler_inv_run MAX fs evs : scheduler_inv MAX (run MAX fs evs).
Proof.
  unfold run. generalize (scheduler_inv_initial MAX fs).
  generalize (initial_state fs) as s. induction evs as [|ev evs IH]; intros s Hs; cbn.
  - done.
  - by apply IH, scheduler_inv_step.
Qed.

(** A map whose keys are all the same key has at most one entry. *)
Lemma size_le_1 {A} (m : gmap string A) (k : string) :
  (∀ i x, m !! i = Some x → i = k) → size m ≤ 1.
Proof.
  intros Hkeys. rewrite <- size_dom, <- (size_singleton (C := gset string) k).
  apply subseteq_size. intros i [x Hx]%elem_of_dom.
  apply elem_of_singleton. by eapply Hkeys.
Qed.

Lemma scheduler_inv_bound (N : nat) s :
  scheduler_inv (Z.of_nat N) s → size (processing_jobs s) ≤ N.
Proof.
  unfold scheduler_inv, processing_jobs.
  destruct (awaiting s) as [translation_request|].
  - intros (_ & HN & Hjobs). trans 1; [|lia].
    apply (size_le_1 _ (TranslationRequest.job_id translation_request)).
    intros i job [Hi Hproc]%map_lookup_filter_Some. by eapply Hjobs.
  - intros (_ & Hjobs). rewrite map_empty_filter_2; [rewrite map_size_empty; lia|].
    intros i job Hi. cbn. by eapply Hjobs.
Qed.

Lemma scheduler_inv_counter (N : nat) s :
  scheduler_inv (Z.of_nat N) s → (0 ≤ processing_count s ≤ Z.of_nat N)%Z.
Proof.
  unfold scheduler_inv. destruct (awaiting s); [intros (-> & ? & _)|intros (-> & _)]; lia.
Qed.

(** C8: whatever the sequence of uploads, runs of the scheduler loop and
    downloads, hence also with more submissions than the bound [N], at
    most [N] jobs are in the processing state in every state reached, and
    the in-flight counter stays within the bound. *)
Theorem concurrency_bound (N : nat) (fs : filesystem) (evs : list event) :
  size (processing_jobs (run (Z.of_nat N) fs evs)) ≤ N
  ∧ (0 ≤ processing_count (run (Z.of_nat N) fs evs) ≤ Z.of_nat N)%Z.
Proof.
  split; [apply scheduler_inv_bound|apply scheduler_inv_counter]; apply scheduler_inv_run.
Qed.

(** The bound is reached: with three submissions and the bound 1, one job
    is processing after the first run of the loop and two are waiting. *)
Example three_uploads_one_processing :
  submissions three_uploads = 3
  ∧ size (processing_jobs (run 1 ∅ three_uploads)) = 1
  ∧ length (translation_queue (run 1 ∅ three_uploads)) = 2.
Proof. split_and!; by vm_compute. Qed.

(** C1 (evaluation): the deck has three slides and five non-empty units;
    its job goes from queued to processing and then to failed, not
    completed, although the output document is saved with the five units
    uppercased in order: the loop unpacks three values from the pair that
    [translate_pptx_async] returns. *)
Theorem end_to_end_job_fails :
  analyze_pptx {[ "deck.pptx" := PptxFile deck ]} "deck.pptx" =
    Ok {| pages := 3; text_count := 5; success := true; error := None |}
  ∧ status_history 1 events = [Ok queued; Ok processing; Ok failed]
  ∧ saved_texts (run 1 ∅ events) "/tmp/a/output_job-1.pptx" [0; 1; 3; 4; 5] =
      Some ["HELLO"; "WORLD"; "CELL A"; "CELL B"; "THANKS"]
  ∧ error_message_of "job-1" (run 1 ∅ events) =
      Some "An error occurred during translation: not enough values to unpack (expected 3, got 2)".
Proof. split_and!; by vm_compute. Qed.

End Scheduler.

(** * Batches *)

Section Batches.
Import PyStr Translator Properties Scenario Coverage.

Lemma range_step_lookup stop k i :
  range_step stop 10 !! k = Some i → i = k * 10 ∧ i < stop.
Proof.
  unfold range_step. rewrite list_lookup_fmap.
  destruct (seq 0 _ !! k) as [k'|] eqn:Hk; [|done]. cbn. intros [= <-].
  apply lookup_seq in Hk as [-> Hlt]. cbn. split; [done|].
  pose proof (Nat.div_mod_eq (stop + 10 - 1) 10).
  pose proof (Nat.mod_upper_bound (stop + 10 - 1) 10). lia.
Qed.

Lemma batches_lookup {items : list item} k b :
  batches items !! k = Some b →
  b = take 10 (drop (k * 10) items) ∧ k * 10 < length items.
Proof.
  unfold batches. rewrite list_lookup_fmap.
  destruct (range_step _ _ !! k) as [i|] eqn:Hi; [|done]. cbn. intros [= <-].
  apply range_step_lookup in Hi as [-> ?]. by rewrite slice_take_drop.
Qed.

Lemma batches_length (items : list item) :
  length (batches items) = (length items + 9) / 10.
Proof.
  unfold batches, range_step. rewrite !length_fmap, length_seq. f_equal. lia.
Qed.

Lemma batches_sublist (items : list item) b : b ∈ batches items → sublist b items.
Proof.
  intros (i & -> & _)%list_elem_of_fmap. apply slice_sublist.
Qed.

Lemma batches_sizes (items : list item) :
  concat (batches items) = items
  ∧ Forall (λ b, 1 ≤ length b ≤ 10) (batches items)
  ∧ Forall (λ b, length b = 10) (take (length (batches items) - 1) (batches items)).
Proof.
  split_and!.
  - apply concat_range_slices. lia.
  - apply Forall_lookup. intros k b [-> Hk]%batches_lookup.
    rewrite length_take, length_drop. lia.
  - apply Forall_lookup. intros k b [Hb Hk]%lookup_take_Some.
    apply batches_lookup in Hb as [-> _].
    rewrite batches_length in Hk. rewrite length_take, length_drop.
    pose proof (Nat.div_mod_eq (length items + 9) 10).
    pose proof (Nat.mod_upper_bound (length items + 9) 10). lia.
Qed.

(** X1: the batches cut the list of non-empty items into consecutive
    pieces: concatenated they give the list back, every batch has between
    one and ten items, every batch but the last has exactly ten, there are
    ceil(n / 10) of them, and no item of a batch has an empty text. *)
Theorem batches_partition (texts : list string) :
  concat (batches (collect_non_empty texts).1) = (collect_non_empty texts).1
  ∧ Forall (λ b, 1 ≤ length b ≤ 10) (batches (collect_non_empty texts).1)
  ∧ Forall (λ b, length b = 10)
           (take (length (batches (collect_non_empty texts).1) - 1)
                 (batches (collect_non_empty texts).1))
  ∧ length (batches (collect_non_empty texts).1)
    = (length (collect_non_empty texts).1 + 9) / 10
  ∧ Forall (Forall (λ it, truthy (text it) = true)) (batches (collect_non_empty texts).1).
Proof.
  destruct (batches_sizes (collect_non_empty texts).1) as (Hcat & Hsize & Hfull).
  split_and!; [done..|apply batches_length|].
  apply Forall_forall. intros b Hb. eapply Forall_sublist; [by apply batches_sublist|].
  rewrite collect_non_empty_selected. apply item_of_text_truthy.
Qed.

Lemma process_chunk_ext ainvoke1 ainvoke2 chunk :
  ainvoke1 chunk = ainvoke2 chunk →
  process_chunk ainvoke1 chunk = process_chunk ainvoke2 chunk.
Proof. unfold process_chunk. by intros ->. Qed.

(** X2: the result depends on the backend only through its answers to the
    batches, asked in the language of the prompt: two backends that agree
    on them give the same result. *)
Theorem backend_consulted_on_batches_only
    (chain1 chain2 : Chain) (order : list nat) (texts : list string) (target_lang : string) :
  (∀ rank b, b ∈ batches (collect_non_empty texts).1 →
             chain1 rank (language_name target_lang) b
             = chain2 rank (language_name target_lang) b) →
  translate_texts_openai_async chain1 order texts target_lang
  = translate_texts_openai_async chain2 order texts target_lang.
Proof.
  intros Hagree. unfold translate_texts_openai_async.
  case_bool_decide; [done|].
  destruct (collect_non_empty texts) as [items idx]. cbn in Hagree.
  case_bool_decide; [done|].
  assert (gather order
            ((λ i rank, process_chunk (chain1 rank (language_name target_lang))
                                      (slice items i (i + 10)))
               <$> range_step (length items) 10)
          = gather order
              ((λ i rank, process_chunk (chain2 rank (language_name target_lang))
                                        (slice items i (i + 10)))
                 <$> range_step (length items) 10)) as ->; [|done].
  unfold gather. rewrite !imap_fmap. f_equal. apply imap_ext. intros k i Hi. cbn.
  apply process_chunk_ext, Hagree. apply list_elem_of_fmap. exists i.
  split; [done|]. by eapply list_elem_of_lookup_2.
Qed.

Lemma backend_consulted_on_batches_only_witness :
  (∀ rank b, b ∈ batches (collect_non_empty twelve_texts).1 →
             upper_chain rank (language_name "en") b
             = bounded_chain rank (language_name "en") b)
  ∧ translate_texts_openai_async upper_chain [1; 0] twelve_texts "en"
    = translate_texts_openai_async bounded_chain [1; 0] twelve_texts "en".
Proof.
  assert (H : ∀ rank b, b ∈ batches (collect_non_empty twelve_texts).1 →
             upper_chain rank (language_name "en") b
             = bounded_chain rank (language_name "en") b).
  { intros rank b Hb. unfold bounded_chain.
    pose proof (batches_sizes (collect_non_empty twelve_texts).1) as (_ & Hsize & _).
    rewrite Forall_forall in Hsize. by rewrite bool_decide_true by by apply Hsize. }
  split; [exact H|].
  exact (backend_consulted_on_batches_only upper_chain bounded_chain [1; 0]
           twelve_texts "en" H).
Defined.

End Batches.

Section Isolation.
Import PyStr Translator Properties Scenario Coverage.

(** X3: a unit whose batch is answered with translations keyed by id gets
    its translation, whatever happens to the other batches. *)
Theorem batch_failure_isolated
    (translate : item → string) (chain : Chain) (order : list nat)
    (texts : list string) (target_lang : string) (i : nat) (t : string) :
  texts !! i = Some t →
  truthy (strip t) = true →
  (∀ rank chunk, item_of (i, t) ∈ chunk →
     keyed_response translate chunk (chain rank (language_name target_lang) chunk)) →
  ∃ out, translate_texts_openai_async chain order texts target_lang = Ok out
         ∧ out !! i = Some (resolve (translate (item_of (i, t))) (strip t)).
Proof.
  intros Hi Ht Hkeyed.
  destruct (translate_texts_pipeline
              (λ it o, it = item_of (i, t) → o = resolve (translate it) (text it))
              chain order texts target_lang) as (final & Hfinal & Hrel).
  { intros rank chunk Hsub.
    destruct (process_chunk_cases (chain rank (language_name target_lang)) chunk)
      as (out & Hout & Hcases).
    exists out. split; [done|]. apply Forall2_same_length_lookup. split.
    { destruct Hcases as [->|(? & ? & ? & ? & _ & _ & _ & _ & Hres)];
        [by rewrite length_fmap|by eapply Forall2_length]. }
    intros k it o Hk Ho ->.
    rewrite (process_chunk_keyed translate) in Hout.
    - injection Hout as <-. rewrite list_lookup_fmap, Hk in Ho. by injection Ho as <-.
    - eapply sublist_NoDup; [apply item_ids_NoDup|]. by apply fmap_sublist.
    - apply Hkeyed. by eapply list_elem_of_lookup_2. }
  exists final. split; [done|].
  destruct (Forall2_lookup_l _ _ _ i (i, t) Hrel) as (o & -> & Ho);
    [by apply enumerate_lookup|].
  cbn in Ho. rewrite Ht in Ho. f_equal. by apply Ho.
Qed.

Lemma batch_failure_isolated_witness :
  twelve_texts !! 0 = Some "one"
  ∧ truthy (strip "one") = true
  ∧ (∀ rank chunk, item_of (0, "one") ∈ chunk →
       keyed_response (λ it, upper (text it)) chunk
         (first_batch_only_chain rank (language_name "en") chunk))
  ∧ ∃ out, translate_texts_openai_async first_batch_only_chain [1; 0] twelve_texts "en"
           = Ok out
           ∧ out !! 0 = Some (resolve (upper (text (item_of (0, "one")))) (strip "one")).
Proof.
  assert (H : ∀ rank chunk, item_of (0, "one") ∈ chunk →
       keyed_response (λ it, upper (text it)) chunk
         (first_batch_only_chain rank (language_name "en") chunk)).
  { intros rank chunk Hin. unfold first_batch_only_chain.
    rewrite bool_decide_true; [apply upper_chain_keyed|].
    apply list_elem_of_fmap. by exists (item_of (0, "one")). }
  split_and!; [reflexivity|reflexivity|exact H|].
  exact (batch_failure_isolated (λ it, upper (text it)) first_batch_only_chain [1; 0]
           twelve_texts "en" 0 "one" eq_refl eq_refl H).
Defined.

(** The second batch of the twelve texts fails and comes back stripped,
    the first one is translated. *)
Example first_batch_translated_second_falls_back :
  translate_texts_openai_async first_batch_only_chain [1; 0] twelve_texts "en" =
    Ok ["ONE"; "TWO"; ""; "THREE"; "FOUR"; "FIVE"; ""; "SIX"; "SEVEN"; "EIGHT";
        "NINE"; "TEN"; "eleven"; "twelve"].
Proof. by vm_compute. Qed.

Lemma build_id_to_trans_malformed entries e :
  e ∈ entries → malformed e → ∃ x, build_id_to_trans entries = Raise x.
Proof.
  intros Hin Hbad. induction entries as [|e0 entries IH]; [by apply elem_of_nil in Hin|].
  cbn. destruct (py_getitem e0 "id") as [k|x] eqn:Hk; cbn; [|by eexists].
  destruct (py_getitem e0 "translated") as [v|x] eqn:Hv; cbn; [|by eexists].
  destruct (hashable k); [|by eexists].
  apply elem_of_cons in Hin as [->|Hin].
  - destruct Hbad as [[x Hx]|[x Hx]]; congruence.
  - destruct (IH Hin) as [x ->]. by eexists.
Qed.

(** X4: one entry without an "id" or a "translated" among the
    translations of a response discards the whole batch: every item of the
    batch comes back as its source text, also the items that were
    translated correctly. *)
Theorem malformed_entry_discards_batch
    (ainvoke : list item → result pyval) (chunk : list item)
    (d : gmap string pyval) (entries : list pyval) (e : pyval) :
  ainvoke chunk = Ok (PDict d) →
  d !! "translations" = Some (PList entries) →
  e ∈ entries → malformed e →
  process_chunk ainvoke chunk = Ok (text <$> chunk).
Proof.
  intros Hresp Hd Hin Hbad. unfold process_chunk. rewrite Hresp. cbn. rewrite Hd. cbn.
  by destruct (build_id_to_trans_malformed entries e Hin Hbad) as [x ->].
Qed.

Lemma malformed_entry_discards_batch_witness :
  let chunk := [{| id := "text_0"; text := "one" |}; {| id := "text_1"; text := "two" |}] in
  let entries := ((λ it, translation_entry (id it) (upper (text it))) <$> chunk)
                   ++ [PStr "done"] in
  stray_entry_chain 0 "English" chunk = Ok (PDict {["translations" := PList entries]})
  ∧ ({["translations" := PList entries]} : gmap string pyval) !! "translations"
    = Some (PList entries)
  ∧ PStr "done" ∈ entries
  ∧ malformed (PStr "done")
  ∧ process_chunk (stray_entry_chain 0 "English") chunk = Ok (text <$> chunk).
Proof.
  intros chunk entries.
  assert (Hin : PStr "done" ∈ entries).
  { apply elem_of_app. right. apply list_elem_of_singleton. reflexivity. }
  assert (Hbad : malformed (PStr "done")) by (left; eexists; reflexivity).
  split_and!; [reflexivity|reflexivity|exact Hin|exact Hbad|].
  exact (malformed_entry_discards_batch (stray_entry_chain 0 "English") chunk
           {["translations" := PList entries]} entries (PStr "done")
           eq_refl eq_refl Hin Hbad).
Defined.


End Isolation.

(** * Documents *)

Section DocumentOrder.
Import PyStr Translator Properties Scenario Coverage.
Implicit Types (texts : gmap ref string) (acc : collected).

Lemma collect_row texts row acc :
  foldl (collect_slot texts) acc row
  = (acc.1 ++ (get_text texts <$> filter (non_blank texts) row),
     acc.2 ++ filter (non_blank texts) row).
Proof.
  revert acc. induction row as [|obj row IH]; intros [ts objs].
  - cbn. by rewrite !app_nil_r.
  - cbn [foldl]. rewrite IH, filter_cons. unfold collect_slot at 1 2. cbn [fst snd].
    destruct (truthy (strip (get_text texts obj))) eqn:E.
    + rewrite decide_True by done. cbn. by rewrite <- !app_assoc.
    + by rewrite decide_False by (unfold non_blank; by rewrite E).
Qed.

Lemma collect_rows texts (rows : list (list ref)) acc :
  foldl (λ acc row, foldl (collect_slot texts) acc row) acc rows
  = (acc.1 ++ (get_text texts <$> filter (non_blank texts) (concat rows)),
     acc.2 ++ filter (non_blank texts) (concat rows)).
Proof.
  revert acc. induction rows as [|row rows IH]; intros [ts objs]; cbn.
  - by rewrite !app_nil_r.
  - rewrite IH, collect_row. cbn. by rewrite filter_app, fmap_app, !app_assoc.
Qed.

(** The traversal of a shape appends, to both accumulators, the non-blank
    slots of the shape in the order of the visit. *)
Lemma collect_texts_from_shape_slots texts sh acc :
  collect_texts_from_shape texts sh acc
  = (acc.1 ++ (get_text texts <$> filter (non_blank texts) (shape_slots sh)),
     acc.2 ++ filter (non_blank texts) (shape_slots sh)).
Proof.
  revert sh acc. fix IH 1. intros [shapes|[rows|e]|paragraphs|] [ts objs]; cbn.
  - generalize ts objs. clear ts objs.
    induction shapes as [|child shapes IHshapes]; intros ts objs; cbn.
    + by rewrite !app_nil_r.
    + rewrite IH, IHshapes. cbn. by rewrite filter_app, fmap_app, !app_assoc.
  - apply collect_rows.
  - by rewrite !app_nil_r.
  - apply collect_rows.
  - by rewrite !app_nil_r.
Qed.

Lemma collect_slide texts (slide : list shape) acc :
  foldl (λ acc sh, collect_texts_from_shape texts sh acc) acc slide
  = (acc.1 ++ (get_text texts <$> filter (non_blank texts) (concat (shape_slots <$> slide))),
     acc.2 ++ filter (non_blank texts) (concat (shape_slots <$> slide))).
Proof.
  revert acc. induction slide as [|sh slide IH]; intros [ts objs]; cbn.
  - by rewrite !app_nil_r.
  - rewrite IH, collect_texts_from_shape_slots. cbn.
    by rewrite filter_app, fmap_app, !app_assoc.
Qed.

(** The collection of a presentation, as one traversal of its slots. *)
Lemma collect_presentation (prs : presentation) :
  collect prs
  = (get_text (slot_text prs)
       <$> filter (non_blank (slot_text prs)) (presentation_slots prs),
     filter (non_blank (slot_text prs)) (presentation_slots prs)).
Proof.
  unfold collect, presentation_slots.
  assert (H : ∀ (sls : list (list shape)) acc,
    foldl (λ acc slide,
             foldl (λ acc sh, collect_texts_from_shape (slot_text prs) sh acc) acc slide)
          acc sls
    = (acc.1 ++ (get_text (slot_text prs) <$>
                   filter (non_blank (slot_text prs))
                     (concat ((λ slide, concat (shape_slots <$> slide)) <$> sls))),
       acc.2 ++ filter (non_blank (slot_text prs))
                  (concat ((λ slide, concat (shape_slots <$> slide)) <$> sls)))).
  { induction sls as [|slide sls IH]; intros [ts objs]; cbn.
    - by rewrite !app_nil_r.
    - rewrite IH, collect_slide. cbn. by rewrite filter_app, fmap_app, !app_assoc. }
  by rewrite H.
Qed.

(** X5: the collection visits the slots depth first in document order:
    the collected slots are the slots of the presentation that hold
    non-blank text, in that order and with repetitions kept, and the
    collected texts are the texts of those slots, unstripped. *)
Theorem collect_in_document_order (prs : presentation) :
  (collect prs).2 = filter (non_blank (slot_text prs)) (presentation_slots prs)
  ∧ (collect prs).1 = get_text (slot_text prs) <$> (collect prs).2.
Proof. by rewrite collect_presentation. Qed.

End DocumentOrder.

Section TranslateDocument.
Import PyStr Translator Properties Scenario Coverage.
Implicit Types (texts : gmap ref string).











End TranslateDocument.

(** * The pricing table *)

Section PricingTable.
Import PyStr PyNum TokenCounter.

(** Every entry of the table has a name that is its own normal form, and
    charges nothing for no tokens. *)
Lemma PRICING_entries key tier :
  PRICING !! key = Some tier →
  strip (lower key) = key
  ∧ cost_at tier 0 0 = Ok {| input_cost := 0; output_cost := 0; total_cost := 0 |}.
Proof.
  unfold PRICING. intros H%elem_of_list_to_map_2. revert key tier H.
  match goal with
  | |- ∀ key tier, (key, tier) ∈ ?L → _ =>
      assert (Forall (λ kv : string * pricing,
                strip (lower kv.1) = kv.1
                ∧ cost_at kv.2 0 0
                  = Ok {| input_cost := 0; output_cost := 0; total_cost := 0 |}) L)
        as HL
  end.
  { repeat (constructor; [by vm_compute|]). constructor. }
  intros key tier Hin. rewrite Forall_forall in HL. apply (HL _ Hin).
Qed.

Lemma normalize_exact key :
  in_PRICING key = true → strip (lower key) = key → _normalize_model_name key = key.
Proof. intros Hin Hkey. unfold _normalize_model_name. by rewrite Hkey, Hin. Qed.

Lemma in_PRICING_lookup key : in_PRICING key = true ↔ ∃ tier, PRICING !! key = Some tier.
Proof. unfold in_PRICING. rewrite bool_decide_eq_true. done. Qed.

(** The normalised name is a name of the table in normal form. *)
Lemma normalize_in_PRICING (model_name : string) :
  in_PRICING (_normalize_model_name model_name) = true
  ∧ strip (lower (_normalize_model_name model_name)) = _normalize_model_name model_name.
Proof.
  assert (Hpatterns : Forall (λ p, in_PRICING p = true ∧ strip (lower p) = p)
                             ("default" :: spec_patterns)).
  { repeat (constructor; [by vm_compute|]). constructor. }
  rewrite normalize_first_match. unfold spec_normalize.
  destruct (in_PRICING (strip (lower model_name))) eqn:Hexact.
  - split; [done|]. by rewrite lower_strip, lower_idemp, strip_idemp.
  - rewrite Forall_forall in Hpatterns. apply Hpatterns.
    destruct (first_match spec_patterns _) as [p|] eqn:Hp; cbn; [|by left].
    right. apply first_match_Some in Hp as (i & Hi & _).
    by eapply list_elem_of_lookup_2.
Qed.

(** X8: the normalised model name is always a name of the pricing table,
    so the lookup of the tier never takes its fallback, and normalising
    twice changes nothing. *)
Theorem normalized_name_in_table (model_name : string) :
  (∃ tier, PRICING !! _normalize_model_name model_name = Some tier)
  ∧ _normalize_model_name (_normalize_model_name model_name)
    = _normalize_model_name model_name.
Proof.
  destruct (normalize_in_PRICING model_name) as [Hin Hnorm].
  split; [by apply in_PRICING_lookup|by apply normalize_exact].
Qed.

(** X9: a model named exactly as an entry of the pricing table is billed
    at that entry. *)
Theorem table_name_billed_at_its_tier
    (key : string) (tier : pricing) (input_tokens output_tokens : Z) :
  PRICING !! key = Some tier →
  calculate_cost key input_tokens output_tokens = cost_at tier input_tokens output_tokens.
Proof.
  intros Hkey. rewrite calculate_cost_cost_at, normalize_exact.
  - by rewrite Hkey.
  - apply in_PRICING_lookup. eauto.
  - by destruct (PRICING_entries key tier Hkey).
Qed.

Lemma table_name_billed_at_its_tier_witness :
  PRICING !! "o3-mini" = Some {| input := 0.0011; output := 0.0044 |}
  ∧ calculate_cost "o3-mini" 2000 1000
    = cost_at {| input := 0.0011; output := 0.0044 |} 2000 1000.
Proof.
  split; [by vm_compute|].
  apply (table_name_billed_at_its_tier "o3-mini" {| input := 0.0011; output := 0.0044 |}).
  by vm_compute.
Defined.

(** X10: no tokens cost nothing, whatever the model name. *)
Theorem zero_usage_costs_nothing (model_name : string) :
  calculate_cost model_name 0 0
  = Ok {| input_cost := 0; output_cost := 0; total_cost := 0 |}.
Proof.
  rewrite calculate_cost_cost_at.
  destruct (normalize_in_PRICING model_name) as [[tier Htier]%in_PRICING_lookup _].
  rewrite Htier. cbn [default from_option]. by destruct (PRICING_entries _ _ Htier).
Qed.

End PricingTable.

(** * Token counting *)

Section Callback.
Import PyStr PyNum TokenCounter TokenCounting Translator.
Implicit Types (cb : callback) (e : encoding).

Lemma foldl_add_start (a : Z) (l : list Z) :
  foldl Z.add a l = (a + foldl Z.add 0%Z l)%Z.
Proof.
  revert a. induction l as [|x l IH]; intros a; cbn [foldl]; [lia|].
  rewrite (IH (a + x)%Z), (IH (0 + x)%Z). lia.
Qed.

Lemma foldl_add_shift {A} (f : A → Z) (a : Z) (l : list A) :
  foldl (λ n x, (n + f x)%Z) a l = (a + foldl Z.add 0%Z (f <$> l))%Z.
Proof.
  rewrite <- foldl_add_start. revert a. induction l as [|x l IH]; intros a; cbn; [done|].
  apply IH.
Qed.

Lemma stream_tokens cb tokens :
  foldl on_llm_new_token cb tokens
  = {| model := model cb; enc := enc cb; input_tokens := input_tokens cb;
       output_tokens := output_tokens cb;
       _current_run_outputs := _current_run_outputs cb ++ tokens |}.
Proof.
  revert cb. induction tokens as [|t tokens IH]; intros cb; cbn.
  - rewrite app_nil_r. by destruct cb.
  - rewrite IH. cbn. by rewrite <- app_assoc.
Qed.

(** X11: when tokens were streamed during an LLM call, the prompts are
    counted one by one into the input total, the streamed text is joined
    and counted once into the output total, the buffer is emptied, and the
    response is not looked at. *)
Theorem streamed_call_counts
    (cb : callback) (prompts tokens : list string) (response : llm_response) :
  _current_run_outputs cb ++ tokens ≠ [] →
  llm_call cb prompts tokens response
  = {| model := model cb; enc := enc cb;
       input_tokens :=
         (input_tokens cb + foldl Z.add 0%Z (count (enc cb) <$> prompts))%Z;
       output_tokens :=
         (output_tokens cb + count (enc cb) (join (_current_run_outputs cb ++ tokens)))%Z;
       _current_run_outputs := [] |}.
Proof.
  intros Hbuf. unfold llm_call. rewrite stream_tokens. unfold on_llm_end. cbn.
  destruct (_current_run_outputs cb ++ tokens) eqn:E; [done|].
  by rewrite foldl_add_shift.
Qed.

Lemma streamed_call_counts_witness :
  let cb := new_callback (λ _, None) char_encoding "gpt-4o-mini" in
  _current_run_outputs cb ++ ["Hel"; "lo"] ≠ []
  ∧ llm_call cb ["Translate"; "this"] ["Hel"; "lo"] {| generations := None |}
    = {| model := "gpt-4o-mini"; enc := enc cb;
         input_tokens := 13; output_tokens := 5; _current_run_outputs := [] |}.
Proof.
  intros cb. split; [done|].
  exact (streamed_call_counts cb ["Translate"; "this"] ["Hel"; "lo"]
           {| generations := None |} ltac:(done)).
Defined.

(** X12: when nothing was streamed, the end of the call counts the
    generations of the response: for each one its text, else the content
    of its message, else nothing; a response without generations leaves
    the totals as they were. *)
Theorem unstreamed_end_counts_generations (cb : callback) (response : llm_response) :
  _current_run_outputs cb = [] →
  on_llm_end cb response
  = {| model := model cb; enc := enc cb;
       input_tokens := input_tokens cb;
       output_tokens :=
         (output_tokens cb
          + foldl Z.add 0%Z
              (generation_tokens (enc cb) <$> concat (default [] (generations response))))%Z;
       _current_run_outputs := [] |}.
Proof.
  intros Hbuf. unfold on_llm_end. rewrite Hbuf.
  assert (H : ∀ (ls : list (list generation)) n,
    foldl (λ n generation_list,
             foldl (λ n g, (n + generation_tokens (enc cb) g)%Z) n generation_list) n ls
    = (n + foldl Z.add 0%Z (generation_tokens (enc cb) <$> concat ls))%Z).
  { induction ls as [|l ls IH]; intros n; cbn; [lia|].
    rewrite IH, foldl_add_shift, fmap_app, foldl_app.
    rewrite (foldl_add_start (foldl Z.add 0%Z _)). lia. }
  destruct cb as [m e i o buf]. cbn in *. subst buf.
  destruct (generations response) as [[|l ls]|]; cbn [default from_option].
  - cbn. f_equal. lia.
  - f_equal. exact (H (l :: ls) o).
  - cbn. f_equal. lia.
Qed.

Lemma unstreamed_end_counts_generations_witness :
  let cb := new_callback (λ _, None) char_encoding "gpt-4o-mini" in
  let response :=
    {| generations := Some [[{| gen_text := Some "Hello"; gen_message_content := None |};
                             {| gen_text := None; gen_message_content := Some "Hi" |}]] |} in
  _current_run_outputs cb = []
  ∧ on_llm_end cb response
    = {| model := model cb; enc := enc cb;
         input_tokens := input_tokens cb;
         output_tokens :=
           (output_tokens cb
            + foldl Z.add 0%Z
                (generation_tokens (enc cb)
                   <$> concat (default [] (generations response))))%Z;
         _current_run_outputs := [] |}.
Proof.
  intros cb response. split; [reflexivity|].
  exact (unstreamed_end_counts_generations cb response eq_refl).
Defined.

(** X13: after [reset_counters] the metrics report no tokens and no cost,
    for the model the callback was created with. *)
Theorem reset_metrics_are_zero (cb : callback) :
  get_metrics (reset_counters cb)
  = Ok {| metrics_model := model cb;
          metrics_input_tokens := 0; metrics_output_tokens := 0;
          metrics_total_tokens := 0;
          input_cost_usd := 0; output_cost_usd := 0; total_cost_usd := 0 |}.
Proof.
  assert (calculate_cost (model cb) 0 0
          = Ok {| input_cost := 0; output_cost := 0; total_cost := 0 |}) as Hcost.
  { rewrite calculate_cost_cost_at.
    destruct (normalize_in_PRICING (model cb)) as [[tier Htier]%in_PRICING_lookup _].
    rewrite Htier. cbn [default from_option].
    by destruct (PRICING_entries _ _ Htier). }
  unfold get_metrics, get_cost_breakdown, reset_counters.
  cbn [model input_tokens output_tokens]. by rewrite Hcost.
Qed.

End Callback.

Lemma foldl_add_permutation (l l' : list Z) (a : Z) :
  l ≡ₚ l' → foldl Z.add a l = foldl Z.add a l'.
Proof.
  intros Hperm. revert a. induction Hperm as [|x l l' _ IH|x y l|l l' l'' _ IH1 _ IH2];
    intros a; cbn; [done|apply IH| |by rewrite IH1].
  f_equal. lia.
Qed.

Section Estimate.
Import PyStr PyNum TokenCounter TokenCounting Translator.
Variable encoding_for_model : string → option encoding.
Variable o200k_base : encoding.

(** X14: the estimate depends only on the non-blank texts, and not on
    their order: two lists with the same non-blank texts up to order get
    the same estimate. *)
Theorem estimate_ignores_blank_texts_and_order
    (texts texts' : list string) (target_lang model : string) :
  filter (λ t, truthy (strip t) = true) texts
    ≡ₚ filter (λ t, truthy (strip t) = true) texts' →
  estimate_translation_cost encoding_for_model o200k_base texts target_lang model
  = estimate_translation_cost encoding_for_model o200k_base texts' target_lang model.
Proof.
  intros Hperm. unfold estimate_translation_cost.
  rewrite (foldl_add_permutation _ _ 0 (fmap_Permutation _ _ _ Hperm)).
  by rewrite (Permutation_length Hperm).
Qed.

(** X15: the number of texts of an estimate is the number of items that
    the translation of the same texts sends to the backend. *)
Theorem estimate_counts_translated_units
    (texts : list string) (target_lang model : string) (e : estimate) :
  estimate_translation_cost encoding_for_model o200k_base texts target_lang model = Ok e →
  TokenCounting.text_count e = length (collect_non_empty texts).1
  ∧ estimated_total_tokens e = (estimated_input_tokens e + estimated_output_tokens e)%Z
  ∧ calculate_cost model (estimated_input_tokens e) (estimated_output_tokens e)
    = Ok (estimated_cost_breakdown e).
Proof.
  unfold estimate_translation_cost, calculate_openai_cost.
  destruct (float_of_int _) as [f|]; cbn; [|done].
  destruct (int_of_float _) as [out|]; cbn; [|done].
  destruct (calculate_cost _ _ _) as [c|] eqn:Hc; cbn; [|done].
  intros [= <-]. cbn. split_and!; [|done..].
  rewrite collect_non_empty_selected. cbn. unfold Properties.selected.
  rewrite length_fmap.
  rewrite <- (enumerate_snd texts) at 1. rewrite <- (length_fmap snd).
  f_equal. generalize (enumerate texts). intros l.
  induction l as [|[i t] l IH]; [done|]. cbn [fmap list_fmap].
  rewrite !filter_cons. cbn [snd]. destruct (decide _); cbn; by rewrite IH.
Qed.

End Estimate.

Lemma estimate_ignores_blank_texts_and_order_witness :
  filter (λ t, PyStr.truthy (PyStr.strip t) = true) ["b"; "  "; "a"]
    ≡ₚ filter (λ t, PyStr.truthy (PyStr.strip t) = true) ["a"; "b"; ""]
  ∧ TokenCounting.estimate_translation_cost (λ _, None) TokenCounting.char_encoding ["b"; "  "; "a"] "en" "gpt-4o"
    = TokenCounting.estimate_translation_cost (λ _, None) TokenCounting.char_encoding ["a"; "b"; ""] "en" "gpt-4o".
Proof.
  assert (H : filter (λ t, PyStr.truthy (PyStr.strip t) = true) ["b"; "  "; "a"]
                ≡ₚ filter (λ t, PyStr.truthy (PyStr.strip t) = true) ["a"; "b"; ""]).
  { change (["b"; "a"] ≡ₚ ["a"; "b"]). apply perm_swap. }
  split; [exact H|].
  exact (estimate_ignores_blank_texts_and_order (λ _, None) TokenCounting.char_encoding ["b"; "  "; "a"] ["a"; "b"; ""]
           "en" "gpt-4o" H).
Defined.


Lemma estimate_counts_translated_units_witness :
  ∃ e,
    TokenCounting.estimate_translation_cost (λ _, None) TokenCounting.char_encoding
      ["Hello"; "  "; "World!"] "en" "gpt-4o" = Ok e
    ∧ TokenCounting.text_count e = 2
    ∧ TokenCounting.estimated_input_tokens e = 11%Z
    ∧ TokenCounting.estimated_output_tokens e = 13%Z
    ∧ TokenCounting.estimated_total_tokens e = 24%Z.
Proof.
  destruct (TokenCounting.estimate_translation_cost (λ _, None) TokenCounting.char_encoding
              ["Hello"; "  "; "World!"] "en" "gpt-4o") as [e|err] eqn:E;
    [|by vm_compute in E].
  exists e. split; [done|].
  destruct (estimate_counts_translated_units (λ _, None) TokenCounting.char_encoding
              ["Hello"; "  "; "World!"] "en" "gpt-4o" e E) as (Hcount & Htotal & _).
  assert (He : TokenCounting.estimated_input_tokens e = 11%Z
               ∧ TokenCounting.estimated_output_tokens e = 13%Z).
  { vm_compute in E. injection E as <-. by split. }
  destruct He as [Hin Hout]. rewrite Htotal, Hin, Hout, Hcount. by vm_compute.
Defined.

(** * Uploads *)

Section Uploads.
Import PyStr Translator Main Properties Scenario Coverage Service.
Implicit Types (s : state) (MAX : Z) (u : upload).

Lemma analyze_pptx_unloadable fs file_path e :
  Presentation fs file_path = Raise e →
  analyze_pptx fs file_path
  = Ok {| pages := 0; text_count := 0; success := false; error := Some (str_of_exn e) |}.
Proof. intros Hload. unfold analyze_pptx. by rewrite Hload. Qed.

Lemma Presentation_written (fs : filesystem) path content :
  Presentation (<[path := content]> fs) path
  = match content with
    | PptxFile prs => Ok prs
    | OtherFile _ => Raise (PackageNotFoundError ("Package not found at " +:+ path))
    end.
Proof.
  unfold Presentation, filesystem. rewrite (lookup_insert_eq (M := gmap string)).
  by destruct content.
Qed.

Lemma with_files_same s : with_files (files s) s = s.
Proof. by destruct s. Qed.

(** X16: an upload of at most 500 MB, named [*.pptx] in any letter case,
    for the language ja or en, whose content loads as a presentation, is
    accepted: the file is stored, the job is registered as queued with the
    counts of the analysis, its request goes to the end of the queue, and
    the response reports the counts and the new length of the queue. *)
Theorem accepted_upload_effect u s (prs : presentation) :
  (up_size u ≤ MAX_FILE_SIZE)%Z →
  endswith (lower (up_filename u)) ".pptx" = true →
  up_target_lang u ∈ ["ja"; "en"] →
  up_content u = PptxFile prs →
  upload_file u s
  = ({| translation_queue :=
          translation_queue s
          ++ [{| TranslationRequest.job_id := up_job_id u;
                 TranslationRequest.file_path := up_input_path u;
                 TranslationRequest.output_path := up_output_path u;
                 TranslationRequest.filename := up_filename u;
                 TranslationRequest.target_lang := up_target_lang u;
                 TranslationRequest.ip_address := up_client_ip u;
                 TranslationRequest.file_size := up_size u;
                 TranslationRequest.pages := length (slides prs);
                 TranslationRequest.text_count := length (collect prs).1 |}];
        active_jobs :=
          <[up_job_id u :=
              {| TranslationJob.job_id := up_job_id u;
                 TranslationJob.filename := up_filename u;
                 TranslationJob.target_lang := up_target_lang u;
                 TranslationJob.status := queued;
                 TranslationJob.pages := Some (length (slides prs));
                 TranslationJob.text_count := Some (length (collect prs).1);
                 TranslationJob.error_message := None;
                 TranslationJob.created_at := up_now u;
                 TranslationJob.completed_at := None |}]> (active_jobs s);
        processing_count := processing_count s;
        files := <[up_input_path u := PptxFile prs]> (files s);
        metrics_log := metrics_log s;
        queue_log := queue_log s;
        awaiting := awaiting s |},
     Ok {| r_job_id := up_job_id u;
           r_pages := length (slides prs);
           r_text_count := length (collect prs).1;
           r_queue_position := length (translation_queue s) + 1 |}).
Proof.
  intros Hsize Hname Hlang Hcontent. unfold upload_file.
  rewrite (proj2 (Z.ltb_ge _ _) Hsize), Hname, (bool_decide_true _ Hlang). cbn [negb].
  rewrite Hcontent.
  rewrite (analyze_pptx_loaded _ _ prs) by apply (Presentation_written _ _ (PptxFile prs)).
  done.
Qed.

Lemma accepted_upload_effect_witness :
  (up_size the_upload ≤ MAX_FILE_SIZE)%Z
  ∧ endswith (lower (up_filename the_upload)) ".pptx" = true
  ∧ up_target_lang the_upload ∈ ["ja"; "en"]
  ∧ up_content the_upload = PptxFile deck
  ∧ (upload_file the_upload (initial_state ∅)).2
    = Ok {| r_job_id := "job-1"; r_pages := 3; r_text_count := 5; r_queue_position := 1 |}.
Proof.
  assert (Hlang : up_target_lang the_upload ∈ ["ja"; "en"]) by (right; left).
  split_and!; [by vm_compute|by vm_compute|exact Hlang|reflexivity|].
  rewrite (accepted_upload_effect the_upload (initial_state ∅) deck
             ltac:(by vm_compute) ltac:(by vm_compute) Hlang eq_refl).
  by vm_compute.
Defined.

(** X17: any other upload is refused with an HTTP error 413 or 400 and
    leaves no trace: no job, no request on the queue, the counter and the
    logs as they were, and no file under the input path if the upload got
    as far as writing it. *)
Theorem rejected_upload_leaves_no_trace u s :
  ¬ ((up_size u ≤ MAX_FILE_SIZE)%Z
     ∧ endswith (lower (up_filename u)) ".pptx" = true
     ∧ up_target_lang u ∈ ["ja"; "en"]
     ∧ ∃ prs, up_content u = PptxFile prs) →
  ∃ fs status_code detail,
    upload_file u s = (with_files fs s, Raise (HTTPException status_code detail))
    ∧ (fs = files s ∨ fs = delete (up_input_path u) (files s))
    ∧ (status_code = 413 ∨ status_code = 400).
Proof.
  intros Hnot. unfold upload_file.
  destruct (Z.ltb_spec MAX_FILE_SIZE (up_size u)) as [Hbig|Hsize].
  { exists (files s). do 2 eexists. rewrite with_files_same. split_and!; eauto. }
  destruct (endswith (lower (up_filename u)) ".pptx") eqn:Hname; cbn [negb];
    [|exists (files s); do 2 eexists; rewrite with_files_same; split_and!; eauto].
  case_bool_decide as Hlang; cbn [negb];
    [|exists (files s); do 2 eexists; rewrite with_files_same; split_and!; eauto].
  destruct (up_content u) as [prs|content] eqn:Hcontent.
  { destruct Hnot. split_and!; eauto. }
  rewrite (analyze_pptx_unloadable _ _ _ (Presentation_written _ _ (OtherFile content))).
  cbn [success negb]. exists (delete (up_input_path u) (files s)). do 2 eexists.
  split_and!; [|by right|by right].
  f_equal. unfold with_files. f_equal.
  apply (delete_insert_eq (M := gmap string)).
Qed.

Lemma rejected_upload_leaves_no_trace_witness :
  let u := {| up_job_id := "job-9"; up_filename := "notes.txt"; up_target_lang := "en";
              up_content := OtherFile "hello"; up_size := 5; up_client_ip := "127.0.0.1";
              up_input_path := "/tmp/b/input_job-9.pptx";
              up_output_path := "/tmp/b/output_job-9.pptx"; up_now := 0 |} in
  ¬ ((up_size u ≤ MAX_FILE_SIZE)%Z
     ∧ endswith (lower (up_filename u)) ".pptx" = true
     ∧ up_target_lang u ∈ ["ja"; "en"]
     ∧ ∃ prs, up_content u = PptxFile prs)
  ∧ ∃ fs status_code detail,
      upload_file u (initial_state ∅)
      = (with_files fs (initial_state ∅), Raise (HTTPException status_code detail))
      ∧ (fs = files (initial_state ∅) ∨ fs = delete (up_input_path u) (files (initial_state ∅)))
      ∧ (status_code = 413 ∨ status_code = 400).
Proof.
  intros u.
  assert (Hnot : ¬ ((up_size u ≤ MAX_FILE_SIZE)%Z
     ∧ endswith (lower (up_filename u)) ".pptx" = true
     ∧ up_target_lang u ∈ ["ja"; "en"]
     ∧ ∃ prs, up_content u = PptxFile prs)).
  { intros (_ & Hname & _). by vm_compute in Hname. }
  split; [exact Hnot|]. exact (rejected_upload_leaves_no_trace u (initial_state ∅) Hnot).
Defined.

End Uploads.

(** * The life of a job *)

Section JobLife.
Import PyStr Translator Main Properties Scenario Coverage Service.
Implicit Types (s : state) (MAX : Z) (u : upload).

(** What finishing a job does to the registry and the queue. *)
Lemma finish_job_registry chain order now r s :
  ∃ msg,
    active_jobs (finish_job chain order now r s)
    = alter (mark_failed msg now) (TranslationRequest.job_id r) (active_jobs s)
    ∧ translation_queue (finish_job chain order now r s) = translation_queue s
    ∧ awaiting (finish_job chain order now r s) = None
    ∧ ∃ record, metrics_log (finish_job chain order now r s) = metrics_log s ++ [record].
Proof.
  unfold finish_job.
  pose proof (unpack3_of_translation_raises chain order (files s)
                (TranslationRequest.file_path r) (TranslationRequest.output_path r)
                (TranslationRequest.target_lang r)) as [e He].
  destruct (translate_pptx_async _ _ _ _ _ _) as [fs returned]. cbn in He.
  rewrite He. cbn. eexists. split_and!; [done..|]. by eexists.
Qed.

(** X18: the scheduler loop ends every translation it awaited by marking
    the job failed: the tuple that [translate_pptx_async] returns has two
    values where three are unpacked, and a failure of the translation
    itself is caught by the same handler. One failed record with zero
    usage and the counts of the upload goes to the metrics, the uploaded
    file is removed, the counter is decremented and the queue status is
    logged. *)
Theorem awaited_translation_ends_failed MAX chain order now r s :
  awaiting s = Some r →
  ∃ e,
    (translate_pptx_async chain order (files s) (TranslationRequest.file_path r)
       (TranslationRequest.output_path r) (TranslationRequest.target_lang r)).2
      ≫= unpack3 = Raise e
    ∧ process_translation_queue MAX chain order now s
      = {| translation_queue := translation_queue s;
           active_jobs :=
             alter (mark_failed (error_prefix +:+ str_of_exn e) now)
                   (TranslationRequest.job_id r) (active_jobs s);
           processing_count := processing_count s - 1;
           files :=
             delete (TranslationRequest.file_path r)
               (translate_pptx_async chain order (files s) (TranslationRequest.file_path r)
                  (TranslationRequest.output_path r) (TranslationRequest.target_lang r)).1;
           metrics_log :=
             metrics_log s
             ++ [{| m_ip_address := TranslationRequest.ip_address r;
                    m_filename := TranslationRequest.filename r;
                    m_pages := PInt (Z.of_nat (TranslationRequest.pages r));
                    m_text_count := PInt (Z.of_nat (TranslationRequest.text_count r));
                    m_target_lang := TranslationRequest.target_lang r;
                    m_status := failed;
                    m_error_message := Some (error_prefix +:+ str_of_exn e);
                    m_file_size := TranslationRequest.file_size r;
                    m_input_tokens := PInt 0;
                    m_output_tokens := PInt 0;
                    m_total_tokens := PInt 0;
                    m_total_cost_usd := PFloat 0;
                    m_model_name := PNone |}];
           queue_log :=
             queue_log s ++ [(length (translation_queue s), (processing_count s - 1)%Z)];
           awaiting := None |}.
Proof.
  intros Hawait. unfold process_translation_queue. rewrite Hawait. unfold finish_job.
  pose proof (unpack3_of_translation_raises chain order (files s)
                (TranslationRequest.file_path r) (TranslationRequest.output_path r)
                (TranslationRequest.target_lang r)) as [e He].
  exists e. split; [done|].
  destruct (translate_pptx_async _ _ _ _ _ _) as [fs returned]. cbn in He.
  by rewrite He.
Qed.

Lemma awaited_translation_ends_failed_witness :
  let s := run 1 ∅ [Upload the_upload; Scheduler upper_chain [] 1] in
  ∃ r,
    awaiting s = Some r
    ∧ get_job_status "job-1" (process_translation_queue 1 upper_chain [] 2 s) = Ok failed
    ∧ length (metrics_log (process_translation_queue 1 upper_chain [] 2 s)) = 1.
Proof.
  intros s.
  destruct (awaiting s) as [r|] eqn:Hawait; [|by vm_compute in Hawait].
  exists r. split; [done|].
  destruct (awaited_translation_ends_failed 1 upper_chain [] 2 r s Hawait) as (e & _ & ->).
  assert (Hr : TranslationRequest.job_id r = "job-1").
  { vm_compute in Hawait. by injection Hawait as <-. }
  unfold get_job_status. cbn [active_jobs metrics_log]. rewrite Hr.
  split; [|by rewrite length_app].
  rewrite lookup_alter_eq.
  by destruct (active_jobs s !! "job-1") eqn:Hjob; [|by vm_compute in Hjob].
Defined.

Lemma download_refused job_id s :
  none_completed s →
  download_result job_id s
  = (s, Raise (match active_jobs s !! job_id with
               | None => HTTPException 404 "job not found"
               | Some _ => HTTPException 400 "translation not finished yet"
               end)).
Proof.
  intros Hnc. unfold download_result.
  destruct (active_jobs s !! job_id) as [job|] eqn:Hjob; [|done].
  by rewrite bool_decide_true by by eapply Hnc.
Qed.

Lemma none_completed_step MAX s ev : none_completed s → none_completed (step MAX s ev).
Proof.
  unfold none_completed. intros Hnc. destruct ev as [u|chain order now|job_id]; cbn.
  - destruct (upload_file_effect u s) as (_ & _ & [->|(job & Hq & ->)]); [done|].
    intros id job' [[<- <-]|[_ Hjob]]%lookup_insert_Some; [congruence|by eapply Hnc].
  - unfold process_translation_queue.
    destruct (awaiting s) as [r|].
    + destruct (finish_job_registry chain order now r s) as (msg & -> & _).
      intros id job. rewrite lookup_alter_Some.
      intros [(_ & job' & _ & ->)|[_ Hjob]]; [done|by eapply Hnc].
    + destruct (translation_queue s) as [|r rest]; [done|].
      destruct (_ <=? _)%Z; [done|]. intros id job. cbn. rewrite lookup_alter_Some.
      intros [(_ & job' & _ & ->)|[_ Hjob]]; [done|by eapply Hnc].
  - by rewrite download_refused.
Qed.

Lemma none_completed_run MAX fs evs : none_completed (run MAX fs evs).
Proof.
  unfold run. assert (none_completed (initial_state fs)) as Hinit.
  { intros id job. cbn. by rewrite lookup_empty. }
  revert Hinit. generalize (initial_state fs) as s.
  induction evs as [|ev evs IH]; intros s Hs; cbn; [done|].
  by apply IH, none_completed_step.
Qed.

(** X19: in no state that the service reaches is a job completed, so no
    download ever succeeds: it is refused with 404 for an unknown job and
    with 400 for a known one, and changes nothing; in particular no job
    ever leaves the registry. *)
Theorem no_download_ever_succeeds MAX (fs : filesystem) (evs : list event) (job_id : string) :
  (∀ job, active_jobs (run MAX fs evs) !! job_id = Some job →
          TranslationJob.status job ≠ completed)
  ∧ download_result job_id (run MAX fs evs)
    = (run MAX fs evs,
       Raise (match active_jobs (run MAX fs evs) !! job_id with
              | None => HTTPException 404 "job not found"
              | Some _ => HTTPException 400 "translation not finished yet"
              end)).
Proof.
  pose proof (none_completed_run MAX fs evs) as Hnc.
  split; [apply Hnc|by apply download_refused].
Qed.

End JobLife.

(** * The registry and the queue *)

Section Registry.
Import PyStr Translator Main Properties Scenario Coverage Service.
Implicit Types (s : state) (MAX : Z) (u : upload).

(** An upload leaves the state as it is but for the files, or registers
    its job as queued and appends its request. *)
Lemma upload_file_cases u s :
  (∃ fs, (upload_file u s).1 = with_files fs s)
  ∨ ∃ job r fs,
      TranslationJob.status job = queued
      ∧ TranslationRequest.job_id r = up_job_id u
      ∧ (upload_file u s).1
        = {| translation_queue := translation_queue s ++ [r];
             active_jobs := <[up_job_id u := job]> (active_jobs s);
             processing_count := processing_count s;
             files := fs;
             metrics_log := metrics_log s;
             queue_log := queue_log s;
             awaiting := awaiting s |}.
Proof.
  unfold upload_file.
  repeat case_match; cbn [fst];
    try (left; eexists; first [reflexivity | by rewrite with_files_same]).
  right. do 3 eexists. split_and!; [| |reflexivity]; reflexivity.
Qed.

Lemma registry_inv_initial fs : registry_inv (initial_state fs).
Proof.
  split; cbn.
  - constructor.
  - intros r Hr. by apply elem_of_nil in Hr.
  - intros id job. by rewrite lookup_empty.
  - done.
  - intros id job. by rewrite lookup_empty.
Qed.

Lemma registry_inv_with_files fs s : registry_inv s → registry_inv (with_files fs s).
Proof. intros [? ? ? ? ?]. by split. Qed.

(** The awaited request is not on the queue. *)
Lemma awaited_not_queued s r r' :
  registry_inv s → awaiting s = Some r → r' ∈ translation_queue s →
  TranslationRequest.job_id r' ≠ TranslationRequest.job_id r.
Proof.
  intros Hinv Hawait Hin Heq.
  destruct (awaited_registered s Hinv r Hawait) as (job & Hjob & Hproc).
  destruct (queue_registered s Hinv r' Hin) as (job' & Hjob' & Hq).
  rewrite Heq in Hjob'. congruence.
Qed.

Lemma registry_inv_upload u s :
  registry_inv s → active_jobs s !! up_job_id u = None →
  registry_inv (upload_file u s).1.
Proof.
  intros Hinv Hfresh.
  destruct (upload_file_cases u s) as [[fs ->]|(job & r & fs & Hq & Hr & ->)];
    [by apply registry_inv_with_files|].
  destruct Hinv as [Hnd Hreg Hqd Haw Hpr].
  assert (Hnew : ∀ r', r' ∈ translation_queue s → TranslationRequest.job_id r' ≠ up_job_id u).
  { intros r' Hin Heq. destruct (Hreg r' Hin) as (job' & Hjob' & _). congruence. }
  split; cbn.
  - rewrite fmap_app. apply NoDup_app. split_and!; [done| |apply NoDup_singleton].
    intros id (r' & -> & Hin)%list_elem_of_fmap. cbn. rewrite list_elem_of_singleton.
    rewrite Hr. by apply Hnew.
  - intros r' [Hin|Heq%list_elem_of_singleton]%elem_of_app; [|subst r'].
    + destruct (Hreg r' Hin) as (job' & Hjob' & Hq'). exists job'.
      by rewrite lookup_insert_ne by (apply not_eq_sym; by apply Hnew).
    + exists job. by rewrite Hr, lookup_insert_eq.
  - intros id job' [[<- <-]|[Hne Hjob]]%lookup_insert_Some Hstatus; rewrite fmap_app.
    + apply elem_of_app. right. cbn. rewrite Hr. by left.
    + apply elem_of_app. left. by eapply Hqd.
  - intros r' Hr'. destruct (Haw r' Hr') as (job' & Hjob' & Hproc). exists job'.
    rewrite lookup_insert_ne; [done|]. congruence.
  - intros id job' [[<- <-]|[Hne Hjob]]%lookup_insert_Some Hstatus; [congruence|].
    by eapply Hpr.
Qed.

Lemma registry_inv_loop MAX chain order now s :
  registry_inv s → registry_inv (process_translation_queue MAX chain order now s).
Proof.
  intros Hinv. unfold process_translation_queue.
  destruct (awaiting s) as [r|] eqn:Hawait.
  - destruct (finish_job_registry chain order now r s) as (msg & Hjobs & Hqueue & Hnone & _).
    pose proof (awaited_not_queued s r) as Hnq.
    destruct Hinv as [Hnd Hreg Hqd Haw Hpr].
    split; rewrite ?Hjobs, ?Hqueue, ?Hnone.
    + done.
    + intros r' Hin. destruct (Hreg r' Hin) as (job' & Hjob' & Hq'). exists job'.
      rewrite lookup_alter_ne; [done|]. apply not_eq_sym. apply Hnq; [by split|done..].
    + intros id job. rewrite lookup_alter_Some.
      intros [(_ & job' & _ & ->)|[_ Hjob]]; [done|]. by apply Hqd.
    + done.
    + intros id job. rewrite lookup_alter_Some.
      intros [(_ & job' & _ & ->)|[Hne Hjob]]; [done|]. intros Hproc.
      destruct (Hpr id job Hjob Hproc) as (r' & Hr' & ->). congruence.
  - destruct (translation_queue s) as [|r rest] eqn:Hqueue; [done|].
    destruct Hinv as [Hnd Hreg Hqd Haw Hpr]. rewrite Hqueue in *.
    cbn in Hnd. apply NoDup_cons in Hnd as [Hnotin Hnd].
    destruct (_ <=? _)%Z; split; cbn.
    + rewrite fmap_app. apply NoDup_app. split_and!; [done| |apply NoDup_singleton].
      intros id Hin. cbn. rewrite list_elem_of_singleton. by intros ->.
    + intros r' Hin. apply Hreg. apply elem_of_app in Hin as [Hin|Heq%list_elem_of_singleton];
        [|subst r']; [by right|by left].
    + intros id job Hjob Hq. specialize (Hqd id job Hjob Hq). rewrite fmap_app. cbn in *.
      apply elem_of_cons in Hqd as [->|Hqd]; apply elem_of_app; [right; by left|by left].
    + done.
    + intros id job Hjob Hproc.
      destruct (Hpr id job Hjob Hproc) as (r' & Hr' & _). congruence.
    + done.
    + intros r' Hin. destruct (Hreg r' ltac:(by right)) as (job' & Hjob' & Hq'). exists job'.
      rewrite lookup_alter_ne; [done|]. intros Heq. apply Hnotin.
      apply list_elem_of_fmap. exists r'. by rewrite Heq.
    + intros id job. rewrite lookup_alter_Some.
      intros [(_ & job' & _ & ->)|[Hne Hjob]]; [done|]. intros Hq.
      specialize (Hqd id job Hjob Hq). cbn in Hqd.
      by apply elem_of_cons in Hqd as [->|Hqd].
    + intros r' [= <-]. destruct (Hreg r ltac:(by left)) as (job' & Hjob' & Hq').
      eexists. by rewrite lookup_alter_eq, Hjob'.
    + intros id job. rewrite lookup_alter_Some.
      intros [(<- & _)|[Hne Hjob]]; [by eexists|]. intros Hproc.
      destruct (Hpr id job Hjob Hproc) as (r' & Hr' & _). congruence.
Qed.

(** A job id that is not registered stays so unless an upload draws it. *)
Lemma step_unregistered MAX s ev job_id :
  active_jobs s !! job_id = None →
  job_id ∉ upload_ids [ev] →
  active_jobs (step MAX s ev) !! job_id = None.
Proof.
  intros Hnone Hev. destruct ev as [u|chain order now|id]; cbn.
  - destruct (upload_file_effect u s) as (_ & _ & [->|(job & Hq & ->)]); [done|].
    rewrite lookup_insert_ne; [done|]. intros <-. apply Hev. cbn. by left.
  - unfold process_translation_queue. destruct (awaiting s) as [r|].
    + destruct (finish_job_registry chain order now r s) as (msg & -> & _).
      by rewrite lookup_alter_None.
    + destruct (translation_queue s) as [|r rest]; [done|].
      destruct (_ <=? _)%Z; [done|]. cbn. by rewrite lookup_alter_None.
  - unfold download_result. destruct (active_jobs s !! id); [|done].
    case_bool_decide; [done|]. cbn. by apply lookup_delete_None; right.
Qed.

Lemma upload_ids_cons ev evs : upload_ids (ev :: evs) = upload_ids [ev] ++ upload_ids evs.
Proof. by destruct ev. Qed.

Lemma registry_inv_step MAX s ev :
  registry_inv s → none_completed s →
  (∀ job_id, job_id ∈ upload_ids [ev] → active_jobs s !! job_id = None) →
  registry_inv (step MAX s ev).
Proof.
  intros Hinv Hnc Hfresh. destruct ev as [u|chain order now|id]; cbn [step].
  - apply registry_inv_upload; [done|]. apply Hfresh. cbn. by left.
  - by apply registry_inv_loop.
  - by rewrite download_refused.
Qed.

(** The ids that later uploads draw are still unregistered after a step. *)
Lemma fresh_step MAX s ev evs :
  NoDup (upload_ids (ev :: evs)) →
  (∀ job_id, job_id ∈ upload_ids (ev :: evs) → active_jobs s !! job_id = None) →
  NoDup (upload_ids evs)
  ∧ ∀ job_id, job_id ∈ upload_ids evs → active_jobs (step MAX s ev) !! job_id = None.
Proof.
  rewrite upload_ids_cons. intros (Hnd1 & Hdisj & Hnd)%NoDup_app Hfresh.
  split; [done|]. intros id Hid. apply step_unregistered.
  - apply Hfresh, elem_of_app. by right.
  - intros Hin. by apply (Hdisj id).
Qed.

Lemma registry_inv_foldl MAX s evs :
  registry_inv s → none_completed s →
  NoDup (upload_ids evs) →
  (∀ job_id, job_id ∈ upload_ids evs → active_jobs s !! job_id = None) →
  registry_inv (foldl (step MAX) s evs).
Proof.
  revert s. induction evs as [|ev evs IH]; intros s Hinv Hnc Hnd Hfresh; [done|].
  cbn [foldl]. destruct (fresh_step MAX s ev evs Hnd Hfresh) as [Hnd' Hfresh'].
  apply IH; [|by apply none_completed_step|done..].
  apply registry_inv_step; [done..|]. intros id Hid. apply Hfresh.
  rewrite upload_ids_cons. apply elem_of_app. by left.
Qed.

Lemma registry_inv_run MAX fs evs :
  NoDup (upload_ids evs) → registry_inv (run MAX fs evs).
Proof.
  intros Hnd. apply registry_inv_foldl; [apply registry_inv_initial| |done|].
  - intros id job. cbn. by rewrite lookup_empty.
  - intros id _. cbn. by rewrite lookup_empty.
Qed.

(** The size of a map whose keys are the elements of a list without
    repetition. *)
Lemma size_keys {A} (m : gmap string A) (l : list string) :
  NoDup l → (∀ k, is_Some (m !! k) ↔ k ∈ l) → size m = length l.
Proof.
  intros Hnd Hkeys. rewrite <- size_dom, <- (size_list_to_set (C := gset string) l Hnd).
  f_equal. apply set_eq. intros k. rewrite elem_of_dom, elem_of_list_to_set. apply Hkeys.
Qed.

(** X20: when the job ids drawn by the uploads are distinct, the report
    of [get_queue_status] is accurate in every state the service reaches:
    the number of queued jobs is the length of the queue, and the number
    of processing jobs is the in-flight counter. *)
Theorem queue_report_accurate MAX (fs : filesystem) (evs : list event) :
  NoDup (upload_ids evs) →
  get_queue_status MAX (run MAX fs evs)
  = {| queue_size := length (translation_queue (run MAX fs evs));
       report_processing_count := Z.to_nat (processing_count (run MAX fs evs));
       max_concurrent := MAX |}.
Proof.
  intros Hnd. pose proof (registry_inv_run MAX fs evs Hnd) as Hinv.
  pose proof (scheduler_inv_run MAX fs evs) as Hsched.
  set (s := run MAX fs evs) in *. unfold get_queue_status. f_equal.
  - unfold queued_jobs.
    rewrite <- (length_fmap TranslationRequest.job_id).
    apply size_keys; [apply Hinv|]. intros id. split.
    + intros [job [Hjob Hq]%map_lookup_filter_Some]. by eapply (queued_on_queue s Hinv).
    + intros (r & -> & Hin)%list_elem_of_fmap.
      destruct (queue_registered s Hinv r Hin) as (job & Hjob & Hq).
      exists job. by apply map_lookup_filter_Some.
  - unfold processing_jobs, scheduler_inv in *.
    destruct (awaiting s) as [r|] eqn:Hawait.
    + destruct Hsched as (-> & _ & _).
      change (Z.to_nat 1) with (length [TranslationRequest.job_id r]).
      apply size_keys; [apply NoDup_singleton|]. intros id. rewrite list_elem_of_singleton.
      split.
      * intros [job [Hjob Hp]%map_lookup_filter_Some].
        destruct (processing_awaited s Hinv id job Hjob Hp) as (r' & Hr' & ->). congruence.
      * intros ->. destruct (awaited_registered s Hinv r Hawait) as (job & Hjob & Hp).
        exists job. by apply map_lookup_filter_Some.
    + destruct Hsched as (-> & Hnone). rewrite map_empty_filter_2; [done|].
      intros id job Hjob. cbn. by eapply Hnone.
Qed.

Lemma queue_report_accurate_witness :
  NoDup (upload_ids busy_day)
  ∧ get_queue_status 1 (run 1 ∅ busy_day)
    = {| queue_size := 1; report_processing_count := 1; max_concurrent := 1 |}.
Proof.
  assert (Hnd : NoDup (upload_ids busy_day)).
  { apply (bool_decide_unpack _). by vm_compute. }
  split; [exact Hnd|].
  rewrite (queue_report_accurate 1 ∅ busy_day Hnd). by vm_compute.
Defined.

(** A failed job is not touched by a step. *)
Lemma failed_job_step MAX s ev job_id job :
  registry_inv s → none_completed s →
  job_id ∉ upload_ids [ev] →
  active_jobs s !! job_id = Some job → TranslationJob.status job = failed →
  active_jobs (step MAX s ev) !! job_id = Some job.
Proof.
  intros Hinv Hnc Hev Hjob Hfailed. destruct ev as [u|chain order now|id]; cbn.
  - destruct (upload_file_effect u s) as (_ & _ & [->|(job' & Hq & ->)]); [done|].
    rewrite lookup_insert_ne; [done|]. intros <-. apply Hev. cbn. by left.
  - unfold process_translation_queue. destruct (awaiting s) as [r|] eqn:Hawait.
    + destruct (finish_job_registry chain order now r s) as (msg & -> & _).
      rewrite lookup_alter_ne; [done|]. intros <-.
      destruct (awaited_registered s Hinv r Hawait) as (job' & Hjob' & Hp). congruence.
    + destruct (translation_queue s) as [|r rest] eqn:Hqueue; [done|].
      destruct (_ <=? _)%Z; [done|]. cbn. rewrite lookup_alter_ne; [done|]. intros <-.
      destruct (queue_registered s Hinv r) as (job' & Hjob' & Hq);
        [rewrite Hqueue; by left|congruence].
  - by rewrite download_refused.
Qed.

Lemma failed_job_foldl MAX s evs job_id job :
  registry_inv s → none_completed s →
  NoDup (upload_ids evs) →
  (∀ id, id ∈ upload_ids evs → active_jobs s !! id = None) →
  active_jobs s !! job_id = Some job → TranslationJob.status job = failed →
  active_jobs (foldl (step MAX) s evs) !! job_id = Some job.
Proof.
  revert s. induction evs as [|ev evs IH]; intros s Hinv Hnc Hnd Hfresh Hjob Hfailed; [done|].
  cbn [foldl]. destruct (fresh_step MAX s ev evs Hnd Hfresh) as [Hnd' Hfresh'].
  assert (Hev : ∀ id, id ∈ upload_ids [ev] → active_jobs s !! id = None).
  { intros id Hid. apply Hfresh. rewrite upload_ids_cons. apply elem_of_app. by left. }
  apply IH; [by apply registry_inv_step|by apply none_completed_step|done..| |done].
  apply failed_job_step; [done..| |done|done].
  intros Hin. apply Hev in Hin. congruence.
Qed.

(** X21: when the job ids drawn by the uploads are distinct, a failed job
    is final: whatever happens afterwards, its entry in the registry,
    error message included, stays as it is. *)
Theorem failed_job_is_final
    MAX (fs : filesystem) (evs evs' : list event) (job_id : string) (job : TranslationJob.t) :
  NoDup (upload_ids (evs ++ evs')) →
  active_jobs (run MAX fs evs) !! job_id = Some job →
  TranslationJob.status job = failed →
  active_jobs (run MAX fs (evs ++ evs')) !! job_id = Some job.
Proof.
  intros Hnd Hjob Hfailed. unfold run in *. rewrite foldl_app.
  assert (upload_ids (evs ++ evs') = upload_ids evs ++ upload_ids evs') as Hids
    by apply omap_app.
  rewrite Hids in Hnd. apply NoDup_app in Hnd as (Hnd & Hdisj & Hnd').
  apply failed_job_foldl; [by apply registry_inv_run|apply none_completed_run|done| |done..].
  intros id Hid.
  assert (∀ s, active_jobs s !! id = None → id ∉ upload_ids evs →
               active_jobs (foldl (step MAX) s evs) !! id = None) as H.
  { clear. induction evs as [|ev evs IH]; intros s Hs Hev; [done|]. cbn [foldl].
    rewrite upload_ids_cons in Hev. apply not_elem_of_app in Hev as [Hev1 Hev2].
    apply IH; [|done]. by apply step_unregistered. }
  apply H; [by cbn; rewrite lookup_empty|]. intros Hin. by apply (Hdisj id).
Qed.

Lemma failed_job_is_final_witness :
  let evs := [Upload the_upload; Scheduler upper_chain [] 1; Scheduler upper_chain [] 2] in
  let evs' := [Upload (upload_as "job-2"); Scheduler upper_chain [] 3;
               Scheduler upper_chain [] 4; Download "job-1"] in
  ∃ job,
    NoDup (upload_ids (evs ++ evs'))
    ∧ active_jobs (run 1 ∅ evs) !! "job-1" = Some job
    ∧ TranslationJob.status job = failed
    ∧ active_jobs (run 1 ∅ (evs ++ evs')) !! "job-1" = Some job.
Proof.
  intros evs evs'.
  destruct (active_jobs (run 1 ∅ evs) !! "job-1") as [job|] eqn:Hjob;
    [|by vm_compute in Hjob].
  assert (Hfailed : TranslationJob.status job = failed).
  { vm_compute in Hjob. by injection Hjob as <-. }
  assert (Hnd : NoDup (upload_ids (evs ++ evs'))).
  { apply (bool_decide_unpack _). by vm_compute. }
  exists job. split_and!; [done..|].
  exact (failed_job_is_final 1 ∅ evs evs' "job-1" job Hnd Hjob Hfailed).
Defined.

End Registry.

(** * The order of service *)

Section Order.
Import PyStr Translator Main Properties Scenario Coverage Service.
Implicit Types (s : state) (MAX : Z) (u : upload).

Lemma upload_file_queue u s :
  translation_queue (upload_file u s).1
  = translation_queue s
    ++ drop (length (translation_queue s)) (translation_queue (upload_file u s).1).
Proof.
  destruct (upload_file_cases u s) as [[fs ->]|(job & r & fs & _ & _ & ->)]; cbn.
  - by rewrite drop_all, app_nil_r.
  - by rewrite drop_app_length.
Qed.

Lemma download_result_queue job_id s :
  translation_queue (download_result job_id s).1 = translation_queue s
  ∧ awaiting (download_result job_id s).1 = awaiting s.
Proof.
  unfold download_result. destruct (active_jobs s !! job_id); [|done].
  by case_bool_decide.
Qed.

Lemma served_in_order MAX s evs :
  (1 ≤ MAX)%Z → scheduler_inv MAX s →
  translation_queue s ++ accepted MAX s evs
  = started MAX s evs ++ translation_queue (foldl (step MAX) s evs).
Proof.
  intros HMAX. revert s. induction evs as [|ev evs IH]; intros s Hinv.
  { cbn. by rewrite app_nil_r. }
  pose proof (scheduler_inv_step MAX s ev Hinv) as Hinv'.
  cbn [accepted started foldl]. rewrite app_assoc.
  destruct ev as [u|chain order now|job_id]; cbn [step] in *.
  - rewrite <- upload_file_queue, IH by done.
    destruct (upload_file_effect u s) as (-> & _). by destruct (awaiting s).
  - rewrite app_nil_r. unfold process_translation_queue in *.
    destruct (awaiting s) as [r|] eqn:Hawait.
    + destruct (finish_job_registry chain order now r s) as (msg & _ & Hq & Hnone & _).
      rewrite <- Hq, IH by done. done.
    + destruct (translation_queue s) as [|r rest] eqn:Hqueue.
      * rewrite Hawait. specialize (IH s Hinv). by rewrite Hqueue in IH.
      * unfold scheduler_inv in Hinv. rewrite Hawait in Hinv. destruct Hinv as [Hcount _].
        rewrite Hcount in *. destruct (Z.leb_spec MAX 0); [lia|].
        cbn [awaiting]. rewrite <- app_assoc, <- (IH _ Hinv'). done.
  - rewrite app_nil_r. destruct (download_result_queue job_id s) as [Hq Ha].
    rewrite Ha, <- Hq, (IH _ Hinv'). by destruct (awaiting s).
Qed.

(** X22: with a bound of at least one, translations are started in the
    order in which the uploads were accepted, one request at a time from
    the head of the queue and never put back: the accepted requests are
    those started so far followed by those still on the queue. *)
Theorem first_come_first_served MAX (fs : filesystem) (evs : list event) :
  (1 ≤ MAX)%Z →
  accepted MAX (initial_state fs) evs
  = started MAX (initial_state fs) evs ++ translation_queue (run MAX fs evs).
Proof.
  intros HMAX.
  apply (served_in_order MAX (initial_state fs) evs HMAX (scheduler_inv_initial MAX fs)).
Qed.

Lemma first_come_first_served_witness :
  (1 ≤ 1)%Z
  ∧ TranslationRequest.job_id <$> accepted 1 (initial_state ∅) busy_day
    = ["job-1"; "job-2"; "job-3"]
  ∧ TranslationRequest.job_id <$> started 1 (initial_state ∅) busy_day = ["job-1"; "job-2"]
  ∧ TranslationRequest.job_id <$> translation_queue (run 1 ∅ busy_day) = ["job-3"].
Proof.
  split; [lia|].
  rewrite (first_come_first_served 1 ∅ busy_day ltac:(lia)), fmap_app.
  split_and!; by vm_compute.
Defined.

(** The state of a service that has started nothing. *)
Lemma nothing_started_step MAX s ev :
  (MAX ≤ 0)%Z →
  awaiting s = None → processing_count s = 0%Z → metrics_log s = [] →
  (∀ job_id job, active_jobs s !! job_id = Some job → TranslationJob.status job = queued) →
  awaiting (step MAX s ev) = None
  ∧ processing_count (step MAX s ev) = 0%Z
  ∧ metrics_log (step MAX s ev) = []
  ∧ (∀ job_id job, active_jobs (step MAX s ev) !! job_id = Some job →
                   TranslationJob.status job = queued)
  ∧ translation_queue (step MAX s ev)
    ≡ₚ translation_queue s ++ accepted MAX s [ev].
Proof.
  intros HMAX Hawait Hcount Hlog Hjobs.
  destruct ev as [u|chain order now|job_id]; cbn [step accepted].
  - rewrite app_nil_r, <- upload_file_queue.
    destruct (upload_file_cases u s) as [[fs ->]|(job & r & fs & Hq & _ & ->)]; cbn;
      split_and!; try done.
    intros id job' [[<- <-]|[_ Hjob]]%lookup_insert_Some; [done|by eapply Hjobs].
  - unfold process_translation_queue. rewrite Hawait, !app_nil_r.
    destruct (translation_queue s) as [|r rest] eqn:Hqueue.
    { rewrite Hqueue. by split_and!. }
    rewrite Hcount. destruct (Z.leb_spec MAX 0); [|lia]. cbn. split_and!; try done.
    by rewrite Permutation_app_comm.
  - rewrite !app_nil_r. unfold download_result.
    destruct (active_jobs s !! job_id) as [job|] eqn:Hjob; [|by split_and!].
    rewrite bool_decide_true; [by split_and!|]. by rewrite (Hjobs _ _ Hjob).
Qed.

Lemma accepted_app MAX s evs evs' :
  accepted MAX s (evs ++ evs')
  = accepted MAX s evs ++ accepted MAX (foldl (step MAX) s evs) evs'.
Proof.
  revert s. induction evs as [|ev evs IH]; intros s; [done|].
  cbn [app accepted foldl]. by rewrite IH, app_assoc.
Qed.

Lemma nothing_started_foldl MAX s evs :
  (MAX ≤ 0)%Z →
  awaiting s = None → processing_count s = 0%Z → metrics_log s = [] →
  (∀ job_id job, active_jobs s !! job_id = Some job → TranslationJob.status job = queued) →
  started MAX s evs = []
  ∧ metrics_log (foldl (step MAX) s evs) = []
  ∧ (∀ job_id job, active_jobs (foldl (step MAX) s evs) !! job_id = Some job →
                   TranslationJob.status job = queued)
  ∧ translation_queue (foldl (step MAX) s evs) ≡ₚ translation_queue s ++ accepted MAX s evs.
Proof.
  intros HMAX. revert s. induction evs as [|ev evs IH]; intros s Hawait Hcount Hlog Hjobs.
  { cbn. by rewrite app_nil_r. }
  destruct (nothing_started_step MAX s ev HMAX Hawait Hcount Hlog Hjobs)
    as (Hawait' & Hcount' & Hlog' & Hjobs' & Hperm).
  destruct (IH _ Hawait' Hcount' Hlog' Hjobs') as (Hst & Hl & Hj & Hp).
  cbn [started foldl]. rewrite Hawait, Hawait', Hst. split_and!; [done..|].
  rewrite Hp, Hperm. cbn [accepted]. by rewrite !app_nil_r, app_assoc.
Qed.

(** X23: with a bound of zero or less the service accepts uploads and
    never serves them: no translation is started, every registered job
    stays queued, nothing reaches the metrics, and the queue holds all the
    accepted requests, rotated by the loop. *)
Theorem no_capacity_no_service MAX (fs : filesystem) (evs : list event) :
  (MAX ≤ 0)%Z →
  started MAX (initial_state fs) evs = []
  ∧ metrics_log (run MAX fs evs) = []
  ∧ (∀ job_id job, active_jobs (run MAX fs evs) !! job_id = Some job →
                   TranslationJob.status job = queued)
  ∧ translation_queue (run MAX fs evs) ≡ₚ accepted MAX (initial_state fs) evs.
Proof.
  intros HMAX.
  apply (nothing_started_foldl MAX (initial_state fs) evs HMAX); done.
Qed.

Lemma no_capacity_no_service_witness :
  (0 ≤ 0)%Z
  ∧ started 0 (initial_state ∅) busy_day = []
  ∧ (TranslationJob.status <$> active_jobs (run 0 ∅ busy_day)) !! "job-1" = Some queued
  ∧ TranslationRequest.job_id <$> translation_queue (run 0 ∅ busy_day)
    = ["job-1"; "job-3"; "job-2"].
Proof.
  split; [lia|].
  destruct (no_capacity_no_service 0 ∅ busy_day ltac:(lia)) as (Hst & _).
  split; [exact Hst|]. split; by vm_compute.
Defined.

End Order.

(** * The address of the client and the metrics *)

Section ClientAddress.
Import PyStr Translator Main Http.

Lemma contains_comma c s :
  contains "," (String c s) = Ascii.eqb "," c || contains "," s.
Proof.
  cbn [contains String.prefix]. destruct (ascii_dec "," c) as [<-|Hne].
  - by destruct s.
  - by rewrite (proj2 (Ascii.eqb_neq _ _) Hne).
Qed.

Lemma split_first_field s :
  ∃ field fields, split "," s = field :: fields ∧ contains "," field = false.
Proof.
  induction s as [|c s (field & fields & IH & Hfield)]; [by do 2 eexists|].
  cbn [split]. destruct (Ascii.eqb c ",") eqn:Hc; [by do 2 eexists|].
  rewrite IH. do 2 eexists. split; [done|].
  rewrite contains_comma, Hfield, Ascii.eqb_sym, Hc. done.
Qed.

Lemma lstrip_no_comma s : contains "," s = false → contains "," (lstrip s) = false.
Proof.
  induction s as [|c s IH]; [done|]. intros H. cbn [lstrip].
  destruct (isspace c); [|done]. apply IH.
  rewrite contains_comma in H. by apply orb_false_elim in H as [_ ?].
Qed.

Lemma rstrip_no_comma s : contains "," s = false → contains "," (rstrip s) = false.
Proof.
  induction s as [|c s IH]; [done|]. rewrite contains_comma.
  intros [Hc Hs]%orb_false_elim. cbn [rstrip].
  destruct (isspace c && _); [done|]. by rewrite contains_comma, Hc, IH.
Qed.

(** X24: when the request carries a non-empty X-Forwarded-For header,
    [get_client_ip] returns an address taken from that header alone,
    whatever X-Real-IP and the connection say: the first comma-separated
    field, stripped, so it holds no comma and no surrounding white space
    (it can be empty). *)
Theorem forwarded_header_decides_client_ip (request : request) (forwarded_for : string) :
  headers_get request "X-Forwarded-For" = Some forwarded_for →
  forwarded_for ≠ "" →
  ∃ first fields,
    split "," forwarded_for = first :: fields
    ∧ get_client_ip request = Ok (strip first)
    ∧ contains "," (strip first) = false
    ∧ strip (strip first) = strip first.
Proof.
  intros Hf Hne. unfold get_client_ip. rewrite Hf. cbn [from_option default id].
  change (Datatypes.id forwarded_for) with forwarded_for.
  destruct (split_first_field forwarded_for) as (field & fields & Hsplit & Hfield).
  exists field, fields. rewrite Hsplit.
  destruct forwarded_for; [done|]. cbn.
  split_and!; [done..| |apply strip_idemp].
  by apply rstrip_no_comma, lstrip_no_comma.
Qed.

Lemma forwarded_header_decides_client_ip_witness :
  let request :=
    {| headers := <["x-forwarded-for" := " 10.0.0.1 , 192.168.0.1"]>
                    {["x-real-ip" := "172.16.0.1"]};
       client := Some "127.0.0.1" |} in
  headers_get request "X-Forwarded-For" = Some " 10.0.0.1 , 192.168.0.1"
  ∧ get_client_ip request = Ok "10.0.0.1".
Proof.
  intros request.
  assert (Hf : headers_get request "X-Forwarded-For" = Some " 10.0.0.1 , 192.168.0.1")
    by (vm_compute; reflexivity).
  split; [exact Hf|].
  destruct (forwarded_header_decides_client_ip request _ Hf ltac:(done))
    as (first & fields & Hsplit & -> & _).
  vm_compute in Hsplit. by injection Hsplit as <- _.
Defined.

End ClientAddress.

Section Metrics.
Import PyStr Translator Main Properties Scenario Coverage Service.
Implicit Types (s : state) (MAX : Z).

Lemma finish_job_logs chain order now r s :
  ∃ record,
    metrics_log (finish_job chain order now r s) = metrics_log s ++ [record]
    ∧ m_status record = failed
    ∧ m_input_tokens record = PInt 0 ∧ m_output_tokens record = PInt 0
    ∧ m_total_tokens record = PInt 0 ∧ m_total_cost_usd record = PFloat 0
    ∧ m_model_name record = PNone
    ∧ ∃ entry, queue_log (finish_job chain order now r s) = queue_log s ++ [entry].
Proof.
  unfold finish_job.
  pose proof (unpack3_of_translation_raises chain order (files s)
                (TranslationRequest.file_path r) (TranslationRequest.output_path r)
                (TranslationRequest.target_lang r)) as [e He].
  destruct (translate_pptx_async _ _ _ _ _ _) as [fs returned]. cbn in He.
  rewrite He. cbn. eexists. split_and!; [done..|]. by eexists.
Qed.

(** X25: in every state the service reaches, each record of the metrics
    log is a failure with zero tokens, zero cost and no model: the usage of
    a translation never reaches the log. There is one record, and one
    queue-status line, per translation that ended. *)
Theorem metrics_never_report_usage MAX (fs : filesystem) (evs : list event) :
  Forall (λ record,
            m_status record = failed
            ∧ m_input_tokens record = PInt 0 ∧ m_output_tokens record = PInt 0
            ∧ m_total_tokens record = PInt 0 ∧ m_total_cost_usd record = PFloat 0
            ∧ m_model_name record = PNone)
         (metrics_log (run MAX fs evs))
  ∧ length (metrics_log (run MAX fs evs)) = length (queue_log (run MAX fs evs)).
Proof.
  unfold run.
  assert (Hinit : Forall (λ record,
            m_status record = failed
            ∧ m_input_tokens record = PInt 0 ∧ m_output_tokens record = PInt 0
            ∧ m_total_tokens record = PInt 0 ∧ m_total_cost_usd record = PFloat 0
            ∧ m_model_name record = PNone)
         (metrics_log (initial_state fs))
     ∧ length (metrics_log (initial_state fs)) = length (queue_log (initial_state fs)))
    by (split; [constructor|done]).
  revert Hinit. generalize (initial_state fs) as s.
  induction evs as [|ev evs IH]; intros s [Hall Hlen]; [done|].
  cbn [foldl]. apply IH. destruct ev as [u|chain order now|job_id]; cbn [step].
  - destruct (upload_file_cases u s) as [[fs' ->]|(job & r & fs' & _ & _ & ->)]; by cbn.
  - unfold process_translation_queue. destruct (awaiting s) as [r|].
    + destruct (finish_job_logs chain order now r s)
        as (record & -> & ? & ? & ? & ? & ? & ? & entry & ->).
      split; [|rewrite !length_app; cbn; lia].
      apply Forall_app. split; [done|]. by repeat constructor.
    + destruct (translation_queue s) as [|r rest]; [done|]. by destruct (_ <=? _)%Z.
  - unfold download_result. destruct (active_jobs s !! job_id); [|done].
    by case_bool_decide.
Qed.

End Metrics.
